(** * lwotg: the lightweight OTG control server

    A shallow embedding of [tools/traffic/lwotg/lwotg.go] and the
    verification of its documented behaviour.

    Conventions of the embedding
    - Go maps are [gmap]s; a [range] over a map visits its entries in an
      order chosen by the runtime, which is an explicit oracle here.
    - Protobuf optional scalars ([*string], [*int32]) are [option]s and the
      generated getters ([GetPortName], [GetPrefix]) are written out.
    - A Go [error] is a gRPC status: a code and a message.
    - The host-networking package [intf], [net.ParseCIDR] and the text
      renderings of protobuf messages are collaborators outside this
      package: they are the fields of the class [Collaborators].
    - Calls of the server into [intf], and the invocations of configuration
      handlers, are recorded in a ghost trace, so that "how many times was
      AddIP called" is a statement about a list.
    - A call of a nil function value panics; RPC results are [outcome]s.
    - [klog] output is not modelled. *)

From Stdlib Require Import ZArith Lia Ascii String.
From stdpp Require Import base option list list_numbers strings pretty gmap fin_maps.

Open Scope Z_scope.
Open Scope string_scope.
Open Scope list_scope.

(** ** gRPC status errors *)

Inductive Code :=
| InvalidArgument
| Unimplemented
| Internal
| OtherCode (n : nat).

Record Status := { code : Code; message : string }.

(** [status.Errorf(c, ...)] once the format string has been expanded. *)
Definition Errorf (c : Code) (msg : string) : Status :=
  {| code := c; message := msg |}.

(** The [(value, error)] pair of a Go function that uses one or the other. *)
Inductive result (A : Type) :=
| Ok (a : A)
| Err (e : Status).
Arguments Ok {A} a.
Arguments Err {A} e.

(** What an RPC method call ends in: it returns, or the goroutine panics. *)
Inductive outcome (A : Type) :=
| Returned (a : A)
| Panicked (why : string).
Arguments Returned {A} a.
Arguments Panicked {A} why.

(** ** The OTG messages, restricted to the fields the server reads *)

Module otg.

Record Port := { Port_Name : string; Port_Location : option string }.

Record DeviceIpv4 := {
  Ipv4_Address : string;
  Ipv4_Prefix : option Z;      (* *int32 *)
  Ipv4_Name : string }.

Definition GetPrefix (a : DeviceIpv4) : Z := default 0 (Ipv4_Prefix a).

Record DeviceEthernet := {
  Eth_PortName : option string;
  Eth_Ipv4Addresses : list DeviceIpv4;
  Eth_Name : string }.

Definition GetPortName (e : DeviceEthernet) : string :=
  default "" (Eth_PortName e).

Record Device := { Ethernets : list DeviceEthernet; Device_Name : string }.

Record Lag := { Lag_Name : string }.
Record Layer1 := { Layer1_Name : string }.
Record Capture := { Capture_Name : string }.
Record ConfigOptions := { PortOptions_LocationPreemption : option bool }.

Record Config := {
  Ports : list Port;
  Lags : list Lag;
  Layer1s : list Layer1;          (* the field Layer1 *)
  Captures : list Capture;
  Devices : list Device;
  Options : option ConfigOptions }.

Record SetConfigRequest := { Req_Config : option Config }.

Inductive ProtocolState_State_Enum :=
| State_unspecified
| State_start
| State_stop.

Record ProtocolState := { PS_State : option ProtocolState_State_Enum }.

Record SetProtocolStateRequest := { Req_ProtocolState : option ProtocolState }.

(** [req.GetProtocolState().GetState()] *)
Definition GetState (req : SetProtocolStateRequest) : ProtocolState_State_Enum :=
  match Req_ProtocolState req with
  | Some ps => default State_unspecified (PS_State ps)
  | None => State_unspecified
  end.

Inductive TransmitState_State_Enum :=
| Tx_unspecified
| Tx_start
| Tx_stop
| Tx_pause.

Record TransmitState := {
  TS_FlowNames : list string;
  TS_State : option TransmitState_State_Enum }.

Record SetTransmitStateRequest := { Req_TransmitState : option TransmitState }.

Record ResponseWarning := { Warnings : list string }.

Record SetConfigResponse := { SetConfig_StatusCode_200 : option ResponseWarning }.
Record SetProtocolStateResponse := { SetProtocolState_StatusCode_200 : option ResponseWarning }.
Record SetTransmitStateResponse := { SetTransmitState_StatusCode_200 : option ResponseWarning }.

End otg.
Import otg.

(** ** Hints and the hint channel *)

Record Hint := { Group : string; Key : string; Val : string }.

(** A Go channel of hints as a sequential program sees it: the buffered
    elements, oldest first, and the capacity. *)
Record Chan := { buf : list Hint; cap : nat }.

(** [select { case ch <- h: default: }] with no receiver waiting: the
    element is buffered when there is room and dropped otherwise. *)
Definition trySend (ch : Chan) (h : Hint) : Chan :=
  if decide (length (buf ch) < cap ch)%nat
  then {| buf := buf ch ++ [h]; cap := cap ch |}
  else ch.

(** ** The desired interface state *)

(** linuxIntf describes the configuration of a specific interface in Linux. *)
Record linuxIntf := { IPv4 : gmap string Z }.

(** The number of interface and address pairs of a desired state. *)
Definition desiredCount (ifCfg : gmap string linuxIntf) : nat :=
  sum_list_with (fun e => size (IPv4 e.2)) (map_to_list ifCfg).

(** [net.IPNet]: address bytes and mask bytes. *)
Record IPNet := { IP : list Z; Mask : list Z }.

(** ** portsToLinux *)

(** The first loop: every port needs a location. *)
Fixpoint portsLoop (ports : list Port) (physIntf : gmap string string)
  : result (gmap string string) :=
  match ports with
  | [] => Ok physIntf
  | p :: ports' =>
      match Port_Location p with
      | None =>
          Err (Errorf InvalidArgument
                 ("invalid interface " +:+ Port_Name p +:+
                  ", does not specify a port location"))
      | Some loc => portsLoop ports' (<[Port_Name p := loc]> physIntf)
      end
  end.

(** The innermost loop, over the addresses of one Ethernet; [ipv4] is the map
    [retIntf[n].IPv4]. *)
Fixpoint addrsLoop (addrs : list DeviceIpv4) (ipv4 : gmap string Z)
  : result (gmap string Z) :=
  match addrs with
  | [] => Ok ipv4
  | a :: addrs' =>
      if decide (GetPrefix a = 0)
      then Err (Errorf InvalidArgument
                  ("unsupported zero prefix length for address " +:+ Ipv4_Address a))
      else addrsLoop addrs' (<[Ipv4_Address a := GetPrefix a]> ipv4)
  end.

Section PortsToLinux.

(** [fmt]'s rendering of an Ethernet message under the verb v. *)
Variable fmt_eth : DeviceEthernet -> string.

(** The loop over the Ethernets of one device. *)
Fixpoint ethernetsLoop (physIntf : gmap string string) (eths : list DeviceEthernet)
    (retIntf : gmap string linuxIntf) (ethMap : gmap string string)
  : result (gmap string linuxIntf * gmap string string) :=
  match eths with
  | [] => Ok (retIntf, ethMap)
  | e :: eths' =>
      if decide (GetPortName e = "")
      then Err (Errorf InvalidArgument
                  ("invalid ethernet port " +:+ fmt_eth e +:+
                   ", does not specify a name"))
      else
        match physIntf !! GetPortName e with
        | None =>
            Err (Errorf InvalidArgument
                   ("invalid port name for Ethernet " +:+ GetPortName e +:+
                    ", does not map to a real interface"))
        | Some n =>
            match addrsLoop (Eth_Ipv4Addresses e) ∅ with
            | Err st => Err st
            | Ok ipv4 =>
                ethernetsLoop physIntf eths'
                  (<[n := {| IPv4 := ipv4 |}]> retIntf)
                  (<[n := Eth_Name e]> ethMap)
            end
        end
  end.

(** The loop over the devices. *)
Fixpoint devicesLoop (physIntf : gmap string string) (devices : list Device)
    (retIntf : gmap string linuxIntf) (ethMap : gmap string string)
  : result (gmap string linuxIntf * gmap string string) :=
  match devices with
  | [] => Ok (retIntf, ethMap)
  | d :: devices' =>
      match ethernetsLoop physIntf (Ethernets d) retIntf ethMap with
      | Err st => Err st
      | Ok (retIntf', ethMap') => devicesLoop physIntf devices' retIntf' ethMap'
      end
  end.

(** portsToLinux takes an input set of ports in an OTG configuration and
    returns the information required to configure them on a Linux host. *)
Definition portsToLinux (ports : list Port) (devices : list Device)
  : result (gmap string linuxIntf * gmap string string) :=
  match portsLoop ports ∅ with
  | Err st => Err st
  | Ok physIntf => devicesLoop physIntf devices ∅ ∅
  end.

End PortsToLinux.

(** An Ethernet bound to a declared port. *)
Definition ethDeclared (ports : list Port) (e : DeviceEthernet) : Prop :=
  GetPortName e ≠ "" /\ GetPortName e ∈ (Port_Name <$> ports).

(** An Ethernet bound to a declared port, all of whose addresses have a
    prefix length other than zero. *)
Definition ethClean (ports : list Port) (e : DeviceEthernet) : Prop :=
  ethDeclared ports e /\ Forall (fun a => GetPrefix a ≠ 0) (Eth_Ipv4Addresses e).

(** An Ethernet that passes every check of the body of the Ethernet loop. *)
Definition ethPasses (physIntf : gmap string string) (e : DeviceEthernet) : Prop :=
  GetPortName e ≠ "" /\ is_Some (physIntf !! GetPortName e) /\
  Forall (fun a => GetPrefix a ≠ 0) (Eth_Ipv4Addresses e).

(** ** Collaborators outside the package *)

(** The host ([World]) with the three operations of package [intf], Go's
    [net.ParseCIDR], the runtime's choice of an iteration order for a map
    [range], and the text renderings that end up in messages and hints.
    Errors of the collaborators are carried as their [Error()] text. *)
Class Collaborators := {
  World : Type;
  intf_ValidInterface : string -> World -> bool;
  intf_AddIP : string -> IPNet -> World -> World * option string;
  intf_SendARP : bool -> World -> World;
  net_ParseCIDR : string -> IPNet + string;
  mapRange : forall {A : Type}, gmap string A -> World -> list (string * A) * World;
  mapRange_perm : forall (A : Type) (m : gmap string A) (w : World),
      (mapRange m w).1 ≡ₚ map_to_list m;
  prototext_Format : SetConfigRequest -> string;
  fmt_req : SetConfigRequest -> string;
  fmt_eth : DeviceEthernet -> string }.

Section Server.

Context `{Collaborators}.

(** *** Ghost trace *)

(** A call into package [intf], or the invocation of the configuration
    handler registered at position [k]. *)
Inductive Event :=
| CallValidInterface (name : string)
| CallAddIP (name : string) (n : IPNet)
| CallSendARP (b : bool)
| CallHandler (k : nat).

(** The host together with the calls this package has made so far, oldest
    first. *)
Record Sys := { world : World; trace : list Event }.

Definition logInvoke (k : nat) (y : Sys) : Sys :=
  {| world := world y; trace := trace y ++ [CallHandler k] |}.

(** The AddIP calls of a trace, in order. *)
Fixpoint addIPCalls (t : list Event) : list (string * IPNet) :=
  match t with
  | [] => []
  | CallAddIP name n :: t' => (name, n) :: addIPCalls t'
  | _ :: t' => addIPCalls t'
  end.

(** The handler invocations of a trace, in order. *)
Fixpoint handlerCalls (t : list Event) : list nat :=
  match t with
  | [] => []
  | CallHandler k :: t' => k :: handlerCalls t'
  | _ :: t' => handlerCalls t'
  end.

Definition do_AddIP (name : string) (n : IPNet) (y : Sys) : Sys * option string :=
  let '(w, r) := intf_AddIP name n (world y) in
  ({| world := w; trace := trace y ++ [CallAddIP name n] |}, r).

Definition do_ValidInterface (name : string) (y : Sys) : bool * Sys :=
  (intf_ValidInterface name (world y),
   {| world := world y; trace := trace y ++ [CallValidInterface name] |}).

Definition do_SendARP (b : bool) (y : Sys) : Sys :=
  {| world := intf_SendARP b (world y); trace := trace y ++ [CallSendARP b] |}.

Definition do_mapRange {A : Type} (m : gmap string A) (y : Sys)
  : list (string * A) * Sys :=
  let '(l, w) := mapRange m (world y) in
  (l, {| world := w; trace := trace y |}).

(** *** The server *)

(** A registered configuration handler: the method value
    [s.baseInterfaceConfig], or a function of the embedding program, which
    acts on the host and reports an error or nil. Handlers are non-nil and
    do not call back into the server. *)
Inductive configHandler :=
| baseHandler
| extHandler (fn : Config -> World -> World * option Status).

(** Server implements the OTG ("Openapi") server. *)
Record Server := {
  intf : gmap string linuxIntf;
  hintCh : option Chan;
  protocolHandler :
    option (option Config -> ProtocolState_State_Enum -> World -> World * option Status);
  configHandlers : list configHandler;
  cfg : option Config }.

(** SetHintChannel sets the hint channel to the specified channel. *)
Definition SetHintChannel (s : Server) (ch : option Chan) : Server :=
  {| intf := intf s; hintCh := ch; protocolHandler := protocolHandler s;
     configHandlers := configHandlers s; cfg := cfg s |}.

Definition SetProtocolHandler (s : Server)
    (fn : option (option Config -> ProtocolState_State_Enum -> World -> World * option Status))
  : Server :=
  {| intf := intf s; hintCh := hintCh s; protocolHandler := fn;
     configHandlers := configHandlers s; cfg := cfg s |}.

(** AddConfigHandler adds fn to the set of configuration handler methods. *)
Definition AddConfigHandler (s : Server) (fn : configHandler) : Server :=
  {| intf := intf s; hintCh := hintCh s; protocolHandler := protocolHandler s;
     configHandlers := configHandlers s ++ [fn]; cfg := cfg s |}.

(** New returns a new lightweight OTG server. *)
Definition New : Server :=
  AddConfigHandler
    {| intf := ∅; hintCh := None; protocolHandler := None;
       configHandlers := []; cfg := None |}
    baseHandler.

Definition cacheInterfaces (s : Server) (v : gmap string linuxIntf) : Server :=
  {| intf := v; hintCh := hintCh s; protocolHandler := protocolHandler s;
     configHandlers := configHandlers s; cfg := cfg s |}.

Definition intfHasAddr (s : Server) (name addr : string) : bool :=
  match intf s !! name with
  | None => false
  | Some v => bool_decide (is_Some (IPv4 v !! addr))
  end.

(** [if s.hintCh != nil { select { case s.hintCh <- h: default: } }] *)
Definition sendHint (s : Server) (h : Hint) : Server :=
  match hintCh s with
  | None => s
  | Some ch =>
      {| intf := intf s; hintCh := Some (trySend ch h);
         protocolHandler := protocolHandler s;
         configHandlers := configHandlers s; cfg := cfg s |}
  end.

Definition setCfg (s : Server) (c : Config) : Server :=
  {| intf := intf s; hintCh := hintCh s; protocolHandler := protocolHandler s;
     configHandlers := configHandlers s; cfg := Some c |}.

(** *** baseInterfaceConfig *)

(** The body of the loop that sends one interface_map hint per entry. *)
Fixpoint hintLoop (s : Server) (entries : list (string * string)) : Server :=
  match entries with
  | [] => s
  | (linuxIf, ethName) :: rest =>
      hintLoop
        (sendHint s {| Group := "interface_map"; Key := linuxIf; Val := ethName |})
        rest
  end.

(** [fmt.Sprintf("%s/%d", addr, mask)] *)
Definition Sprintf_cidr (addr : string) (mask : Z) : string :=
  addr +:+ "/" +:+ pretty mask.

(** The loop over the addresses of one interface. *)
Fixpoint addrLoop (s : Server) (intName : string) (addrs : list (string * Z))
    (y : Sys) : Sys * option Status :=
  match addrs with
  | [] => (y, None)
  | (addr, mask) :: rest =>
      match net_ParseCIDR (Sprintf_cidr addr mask) with
      | inr err =>
          (y, Some (Errorf InvalidArgument
                      ("invalid prefix " +:+ Sprintf_cidr addr mask +:+
                       " for interface " +:+ intName +:+ ", err: " +:+ err)))
      | inl ipNet =>
          (* Avoid configuring an address on an interface that already has
             the address. *)
          if intfHasAddr s intName addr
          then addrLoop s intName rest y
          else
            match do_AddIP intName ipNet y with
            | (y', Some err) =>
                (y', Some (Errorf Internal
                             ("cannot configure address " +:+ addr +:+
                              " on interface " +:+ intName +:+ ", err: " +:+ err)))
            | (y', None) => addrLoop s intName rest y'
            end
      end
  end.

(** The loop over the interfaces of the desired state. *)
Fixpoint intfLoop (s : Server) (entries : list (string * linuxIntf)) (y : Sys)
  : Sys * option Status :=
  match entries with
  | [] => (y, None)
  | (intName, c) :: rest =>
      let '(valid, y0) := do_ValidInterface intName y in
      if negb valid
      then (y0, Some (Errorf Internal
                        ("interface " +:+ intName +:+ " is not configrable, <nil>")))
      else
        let '(addrs, y1) := do_mapRange (IPv4 c) y0 in
        match addrLoop s intName addrs y1 with
        | (y2, Some err) => (y2, Some err)
        | (y2, None) => intfLoop s rest y2
        end
  end.

Definition baseInterfaceConfig (s : Server) (pb : Config) (y : Sys)
  : Server * Sys * option Status :=
  match portsToLinux fmt_eth (Ports pb) (Devices pb) with
  | Err err => (s, y, Some err)
  | Ok (ifCfg, ethMap) =>
      let '(s1, y1) :=
        match hintCh s with
        | None => (s, y)
        | Some _ =>
            let '(entries, y') := do_mapRange ethMap y in
            (hintLoop s entries, y')
        end in
      let '(entries, y2) := do_mapRange ifCfg y1 in
      match intfLoop s1 entries y2 with
      | (y3, Some err) => (s1, y3, Some err)
      | (y3, None) =>
          (* Send ARP responses for the IP addresses we just configured. *)
          (s1, do_SendARP false y3, None)
      end
  end.

(** *** The RPC methods *)

Definition callHandler (fn : configHandler) (c : Config) (s : Server) (y : Sys)
  : Server * Sys * option Status :=
  match fn with
  | baseHandler => baseInterfaceConfig s c y
  | extHandler f =>
      let '(w, r) := f c (world y) in
      (s, {| world := w; trace := trace y |}, r)
  end.

(** [for _, fn := range s.configHandlers { if err := fn(cfg); err != nil
    { return nil, err } }]; [k] is the position of the head of [fns] in
    the slice and only feeds the ghost trace. *)
Fixpoint handlersLoop (k : nat) (fns : list configHandler) (c : Config)
    (s : Server) (y : Sys) : Server * Sys * option Status :=
  match fns with
  | [] => (s, y, None)
  | fn :: rest =>
      match callHandler fn c s (logInvoke k y) with
      | (s', y', Some err) => (s', y', Some err)
      | (s', y', None) => handlersLoop (S k) rest c s' y'
      end
  end.

(** The unsupported-field test of SetConfig. *)
Definition hasUnimplemented (c : Config) : bool :=
  negb (length (Lags c) =? 0)%nat || negb (length (Layer1s c) =? 0)%nat
  || negb (length (Captures c) =? 0)%nat
  || match Options c with Some _ => true | None => false end.

(** SetConfig allows the configuration to be set on the server. *)
Definition SetConfig (s : Server) (req : SetConfigRequest) (y : Sys)
  : Server * Sys * result SetConfigResponse :=
  match Req_Config req with
  | None =>
      (s, y, Err (Errorf InvalidArgument
                    ("invalid request configuration received, " +:+ fmt_req req)))
  | Some c =>
      let s1 :=
        sendHint s {| Group := "meta"; Key := "SetConfig";
                      Val := prototext_Format req |} in
      if hasUnimplemented c
      then (s1, y, Err (Errorf Unimplemented
                          ("request contained fields that are unimplemented, "
                           +:+ fmt_req req)))
      else
        match handlersLoop 0 (configHandlers s1) c s1 y with
        | (s2, y2, Some err) => (s2, y2, Err err)
        | (s2, y2, None) =>
            (setCfg s2 c, y2,
             Ok {| SetConfig_StatusCode_200 := Some {| Warnings := [] |} |})
        end
  end.

(** A call of the nil function value is a run-time panic. *)
Definition SetProtocolState (s : Server) (req : SetProtocolStateRequest) (y : Sys)
  : outcome (Server * Sys * result SetProtocolStateResponse) :=
  match protocolHandler s with
  | None => Panicked "invalid memory address or nil pointer dereference"
  | Some fn =>
      let '(w, r) := fn (cfg s) (GetState req) (world y) in
      let y' := {| world := w; trace := trace y |} in
      match r with
      | Some err => Returned (s, y', Err err)
      | None =>
          Returned (s, y',
            Ok {| SetProtocolState_StatusCode_200 := Some {| Warnings := [] |} |})
      end
  end.

Definition SetTransmitState (s : Server) (req : SetTransmitStateRequest) (y : Sys)
  : outcome (Server * Sys * result SetTransmitStateResponse) :=
  Returned (s, y,
    Ok {| SetTransmitState_StatusCode_200 := Some {| Warnings := [] |} |}).

(** *** Servers a program can hold *)

(** The servers obtained from [New] through the exported methods. The hint
    channel belongs to the embedding program, which may hand over a
    channel in any state. *)
Inductive reachable : Server -> Prop :=
| reach_New : reachable New
| reach_SetHintChannel s ch :
    reachable s -> reachable (SetHintChannel s ch)
| reach_SetProtocolHandler s fn :
    reachable s -> reachable (SetProtocolHandler s fn)
| reach_AddConfigHandler s f :
    reachable s -> reachable (AddConfigHandler s (extHandler f))
| reach_SetConfig s req y :
    reachable s -> reachable (SetConfig s req y).1.1.

(** [ranOk c k fns st st']: invoking the handlers [fns], registered at
    positions [k], [k+1], ..., one after the other on configuration [c]
    leads from [st] to [st'], and each of them returns nil. *)
Inductive ranOk (c : Config)
  : nat -> list configHandler -> Server * Sys -> Server * Sys -> Prop :=
| ranOk_nil k st : ranOk c k [] st st
| ranOk_cons k fn fns s y s1 y1 st' :
    callHandler fn c s (logInvoke k y) = (s1, y1, None) ->
    ranOk c (S k) fns (s1, y1) st' ->
    ranOk c k (fn :: fns) (s, y) st'.

(** The functions [fs] registered on [s], one AddConfigHandler call each,
    in the order of the list. *)
Definition registerAll (s : Server)
    (fs : list (Config -> World -> World * option Status)) : Server :=
  foldl (fun s' f => AddConfigHandler s' (extHandler f)) s fs.

(** [allNil c fs w w']: the functions [fs], applied one after the other to
    the configuration [c], the first on the host [w] and each next one on
    the host the previous one left, all return nil, and the last leaves
    the host [w']. *)
Inductive allNil (c : Config)
  : list (Config -> World -> World * option Status) -> World -> World -> Prop :=
| allNil_nil w : allNil c [] w w
| allNil_cons f fs w w1 w' :
    f c w = (w1, None) -> allNil c fs w1 w' -> allNil c (f :: fs) w w'.

(** Two servers that differ at most in the state of the hint channel. *)
Definition sameCore (s s' : Server) : Prop :=
  intf s' = intf s /\ cfg s' = cfg s /\
  configHandlers s' = configHandlers s /\
  protocolHandler s' = protocolHandler s /\
  (hintCh s = None -> hintCh s' = None).

(** The hint SetConfig offers for a request. *)
Definition metaHint (req : SetConfigRequest) : Hint :=
  {| Group := "meta"; Key := "SetConfig"; Val := prototext_Format req |}.

End Server.

(** ** A laboratory host

    One instance of the collaborators, on which the server can be run: the
    host is the list of addresses on each existing interface, a map range
    follows the order of the keys, and [net.ParseCIDR] is written out for
    IPv4 text. *)

Module Lab.

Definition digitVal (a : ascii) : option Z :=
  let n := Z.of_N (N_of_ascii a) in
  if decide (48 <= n <= 57) then Some (n - 48) else None.

Fixpoint digitsLoop (s : string) (acc : Z) : option Z :=
  match s with
  | EmptyString => Some acc
  | String a s' =>
      match digitVal a with
      | Some d => digitsLoop s' (acc * 10 + d)
      | None => None
      end
  end.

(** The value of a non-empty string of decimal digits. *)
Definition dtoi (s : string) : option Z :=
  match s with
  | EmptyString => None
  | _ => digitsLoop s 0
  end.

Fixpoint splitOn (c : ascii) (s : string) : list string :=
  match s with
  | EmptyString => [EmptyString]
  | String a s' =>
      if decide (a = c) then EmptyString :: splitOn c s'
      else match splitOn c s' with
           | f :: fs => String a f :: fs
           | [] => [String a EmptyString]
           end
  end.

(** The text before and after the first [c]. *)
Fixpoint cut (c : ascii) (s : string) : option (string * string) :=
  match s with
  | EmptyString => None
  | String a s' =>
      if decide (a = c) then Some (EmptyString, s')
      else match cut c s' with
           | Some (l, r) => Some (String a l, r)
           | None => None
           end
  end.

(** One field of a dotted quad: no leading zero, at most 255. *)
Definition octet (f : string) : option Z :=
  match f with
  | String "0" (String _ _) => None
  | _ =>
      match dtoi f with
      | Some v => if decide (v <= 255) then Some v else None
      | None => None
      end
  end.

Definition parseIPv4 (s : string) : option (list Z) :=
  match splitOn "." s with
  | [a; b; c; d] =>
      match octet a, octet b, octet c, octet d with
      | Some a', Some b', Some c', Some d' => Some [a'; b'; c'; d']
      | _, _, _, _ => None
      end
  | _ => None
  end.

(** [net.CIDRMask(n, 8*len)] *)
Fixpoint CIDRMask (len : nat) (n : Z) : list Z :=
  match len with
  | O => []
  | S len' =>
      if decide (8 <= n) then 255 :: CIDRMask len' (n - 8)
      else Z.land (Z.lnot (Z.shiftr 255 n)) 255 :: CIDRMask len' 0
  end.

Definition ParseCIDR (s : string) : IPNet + string :=
  let bad := inr ("invalid CIDR address: " +:+ s) in
  match cut "/" s with
  | None => bad
  | Some (addr, mask) =>
      match parseIPv4 addr, dtoi mask with
      | Some ip, Some n =>
          if decide (n <= 32)
          then let m := CIDRMask 4 n in
               inl {| IP := zip_with Z.land ip m; Mask := m |}
          else bad
      | _, _ => bad
      end
  end.

Abbreviation Host := (gmap string (list IPNet)).

Definition ValidInterface (name : string) (w : Host) : bool :=
  bool_decide (is_Some (w !! name)).

Definition AddIP (name : string) (n : IPNet) (w : Host) : Host * option string :=
  match w !! name with
  | None => (w, Some "Link not found")
  | Some l => (<[name := l ++ [n]]> w, None)
  end.

#[export] Instance lab : Collaborators := {|
  World := Host;
  intf_ValidInterface := ValidInterface;
  intf_AddIP := AddIP;
  intf_SendARP := fun _ w => w;
  net_ParseCIDR := ParseCIDR;
  mapRange := fun A m w => (map_to_list m, w);
  mapRange_perm := fun A m w => reflexivity (map_to_list m);
  prototext_Format := fun _ => "config:{}";
  fmt_req := fun _ => "config:{}";
  fmt_eth := fun e => "name:" +:+ Eth_Name e |}.

(** A host with the single interface eth0 and no address on it. *)
Definition host0 : Sys := {| world := ({[ "eth0" := [] ]} : Host); trace := [] |}.

Definition emptyConfig : Config :=
  {| Ports := []; Lags := []; Layer1s := []; Captures := []; Devices := [];
     Options := None |}.

Definition withPorts (ps : list Port) (ds : list Device) : Config :=
  {| Ports := ps; Lags := []; Layer1s := []; Captures := []; Devices := ds;
     Options := None |}.

Definition addr (a : string) (p : Z) : DeviceIpv4 :=
  {| Ipv4_Address := a; Ipv4_Prefix := Some p; Ipv4_Name := a |}.

Definition eth (name port : string) (addrs : list DeviceIpv4) : DeviceEthernet :=
  {| Eth_PortName := Some port; Eth_Ipv4Addresses := addrs; Eth_Name := name |}.

Definition p1 : Port := {| Port_Name := "p1"; Port_Location := Some "eth0" |}.

(** One port p1 at eth0, one Ethernet bound to p1 carrying 192.0.2.1/31. *)
Definition scenario : Config :=
  withPorts [p1]
    [{| Ethernets := [eth "e1" "p1" [addr "192.0.2.1" 31]]; Device_Name := "d1" |}].

Definition request (c : Config) : SetConfigRequest := {| Req_Config := Some c |}.

(** The network of 192.0.2.1/31 as ParseCIDR returns it. *)
Definition net31 : IPNet := {| IP := [192; 0; 2; 0]; Mask := [255; 255; 255; 254] |}.

Definition p2 : Port := {| Port_Name := "p2"; Port_Location := Some "eth0" |}.

(** Two ports at eth0 and one Ethernet on each. *)
Definition e1 : DeviceEthernet := eth "e1" "p1" [addr "192.0.2.1" 31].
Definition e2 : DeviceEthernet := eth "e2" "p2" [addr "198.51.100.1" 24].

Definition twoEndpoints : list Device :=
  [{| Ethernets := [e1]; Device_Name := "d1" |};
   {| Ethernets := [e2]; Device_Name := "d2" |}].

(** The scenario with a link-aggregation group added. *)
Definition withLag (c : Config) : Config :=
  {| Ports := Ports c; Lags := [{| Lag_Name := "lag1" |}]; Layer1s := Layer1s c;
     Captures := Captures c; Devices := Devices c; Options := Options c |}.

(** One port at eth0 and an Ethernet whose only address has prefix zero. *)
Definition zeroPrefix : Config :=
  withPorts [p1]
    [{| Ethernets := [eth "e1" "p1" [addr "192.0.2.1" 0]]; Device_Name := "d1" |}].

(** A port without a location. *)
Definition p0 : Port := {| Port_Name := "p0"; Port_Location := None |}.

Definition noLocation : Config := withPorts [p1; p0] (Devices scenario).

(** A hint channel with room for four hints. *)
Definition ch4 : Chan := {| buf := []; cap := 4 |}.

(** A handler of the embedding program that always fails. *)
Definition unavailable : Status := {| code := OtherCode 14; message := "unavailable" |}.

Definition failing : configHandler :=
  extHandler (fun _ w => (w, Some unavailable)).

Definition passing : configHandler :=
  extHandler (fun _ w => (w, None)).

(** [New] with a hint channel set. *)
Definition hinted : Server := SetHintChannel New (Some ch4).

(** [New] with a passing, a failing and another passing handler registered
    after the base handler. *)
(** The functions behind [passing] and [failing]. *)
Definition passFn (c : Config) (w : Host) : Host * option Status := (w, None).

Definition failFn (c : Config) (w : Host) : Host * option Status :=
  (w, Some unavailable).

Definition fourHandlers : Server :=
  AddConfigHandler (AddConfigHandler (AddConfigHandler New passing) failing) passing.

(** The acknowledgement of SetConfig. *)
Definition ack : SetConfigResponse :=
  {| SetConfig_StatusCode_200 := Some {| Warnings := [] |} |}.

(** The server and the host after the scenario has been pushed once on a
    new server, and after it has been pushed a second time. *)
Definition server1 : Server :=
  Eval vm_compute in (SetConfig New (request scenario) host0).1.1.
Definition sys1 : Sys :=
  Eval vm_compute in (SetConfig New (request scenario) host0).1.2.
Definition server2 : Server :=
  Eval vm_compute in (SetConfig server1 (request scenario) sys1).1.1.
Definition sys2 : Sys :=
  Eval vm_compute in (SetConfig server1 (request scenario) sys1).1.2.

(** An Ethernet bound to a port nobody declares, and one without a port
    name. *)
Definition undeclared : DeviceEthernet := eth "e9" "p9" [addr "192.0.2.9" 24].

Definition unnamed : DeviceEthernet :=
  {| Eth_PortName := None; Eth_Ipv4Addresses := []; Eth_Name := "e0" |}.

Definition device (e : DeviceEthernet) : Device :=
  {| Ethernets := [e]; Device_Name := "d" |}.

(** The name p1 declared a second time, at eth1. *)
Definition p1again : Port := {| Port_Name := "p1"; Port_Location := Some "eth1" |}.

(** An Ethernet that declares one address twice. *)
Definition twice : DeviceEthernet :=
  eth "e1" "p1" [addr "192.0.2.1" 31; addr "192.0.2.1" 24].

(** A hint channel with no room left, and [New] with that channel. *)
Definition fullCh : Chan :=
  {| buf := [{| Group := "meta"; Key := "SetConfig"; Val := "old" |}]; cap := 1 |}.

Definition choked : Server := SetHintChannel New (Some fullCh).

(** The desired state and the name map of the scenario. *)
Definition desired1 : gmap string linuxIntf :=
  {[ "eth0" := {| IPv4 := {[ "192.0.2.1" := 31 ]} |} ]}.

Definition names1 : gmap string string := {[ "eth0" := "e1" ]}.

(** The base handler run on the scenario, on a new server and on one whose
    cache holds the desired state. *)
Definition base1 : Server * Sys * option Status :=
  Eval vm_compute in baseInterfaceConfig New scenario host0.

Definition cached1 : Server * Sys * option Status :=
  Eval vm_compute in baseInterfaceConfig (cacheInterfaces New desired1) scenario host0.

(** The scenario moved to an interface the host does not have. *)
Definition p9 : Port := {| Port_Name := "p9"; Port_Location := Some "eth9" |}.

Definition elsewhere : Config :=
  withPorts [p9] [device (eth "e9" "p9" [addr "192.0.2.9" 24])].

Definition desired9 : gmap string linuxIntf :=
  {[ "eth9" := {| IPv4 := {[ "192.0.2.9" := 24 ]} |} ]}.

Definition names9 : gmap string string := {[ "eth9" := "e9" ]}.

(** A protocol handler that refuses to run without a configuration. *)
Definition needsConfig (c : option Config) (st : ProtocolState_State_Enum)
    (w : Host) : Host * option Status :=
  match c with
  | Some _ => (w, None)
  | None => (w, Some {| code := OtherCode 9; message := "no configuration" |})
  end.

Definition withProtocol : Server := SetProtocolHandler New (Some needsConfig).

(** The results of some calls on the laboratory host. *)
Definition zeroPush : Server * Sys * result SetConfigResponse :=
  Eval vm_compute in SetConfig New (request zeroPrefix) host0.

(** The three functions registered on [New] to make [fourHandlers]. *)
Definition threeFns : list (Config -> World -> World * option Status) :=
  [passFn; failFn; passFn].

(** The base handler run as the first handler of [fourHandlers]. *)
Definition baseOfFour : Server * Sys * option Status :=
  Eval vm_compute in
    baseInterfaceConfig (sendHint fourHandlers (metaHint (request scenario)))
      scenario (logInvoke 0 host0).

(** Three ports, the first and the last without a location. *)
Definition q0 : Port := {| Port_Name := "q0"; Port_Location := None |}.
Definition q1 : Port := {| Port_Name := "q1"; Port_Location := None |}.

End Lab.

(** ** Notions used to state what the handlers leave behind *)

(** The hint channel [ch'] is [ch] after some sends: the same capacity, the
    hints of [ch] still at the front, and no more hints than the capacity
    when [ch] had no more. *)
Definition chanGrows (ch ch' : Chan) : Prop :=
  cap ch' = cap ch /\ buf ch `prefix_of` buf ch' /\
  ((length (buf ch) <= cap ch)%nat -> (length (buf ch') <= cap ch')%nat).

(** The hint sent for one entry of the name map. *)
Definition interfaceMapHint (kv : string * string) : Hint :=
  {| Group := "interface_map"; Key := kv.1; Val := kv.2 |}.

(** An event of the loop over the interfaces: a ValidInterface call or an
    AddIP call. *)
Definition isIntfLoopCall (ev : Event) : Prop :=
  match ev with
  | CallValidInterface _ | CallAddIP _ _ => True
  | _ => False
  end.

(** What a run of the base handler ends its calls with: SendARP(false)
    when it returns nil, nothing when it returns an error. *)
Definition arpTail (r : option Status) : list Event :=
  match r with
  | None => [CallSendARP false]
  | Some _ => []
  end.

Section ServerNotions.

Context `{Collaborators}.

(** The hint channel of [s'] is that of [s] after some sends; no channel
    stays no channel. *)
Definition hintGrows (s s' : Server) : Prop :=
  match hintCh s with
  | None => hintCh s' = None
  | Some ch => exists ch', hintCh s' = Some ch' /\ chanGrows ch ch'
  end.

(** Two servers that differ at most in the contents of their hint
    channels: both have a channel or neither has. *)
Definition agree (s1 s2 : Server) : Prop :=
  intf s1 = intf s2 /\ cfg s1 = cfg s2 /\
  configHandlers s1 = configHandlers s2 /\
  protocolHandler s1 = protocolHandler s2 /\
  (is_Some (hintCh s1) <-> is_Some (hintCh s2)).

(** An AddIP call for an address of the desired state [ifCfg], with the
    network ParseCIDR gives for it, that the cache of [s] does not hold. *)
Definition fromDesired (s : Server) (ifCfg : gmap string linuxIntf) (ev : Event)
  : Prop :=
  exists name n li a m,
    ev = CallAddIP name n /\ ifCfg !! name = Some li /\ IPv4 li !! a = Some m /\
    net_ParseCIDR (Sprintf_cidr a m) = inl n /\ intfHasAddr s name a = false.

(** A call of the interface loop that the desired state [ifCfg] accounts
    for: ValidInterface on one of its interfaces, or an AddIP call as
    above. *)
Definition expected (s : Server) (ifCfg : gmap string linuxIntf) (ev : Event)
  : Prop :=
  (exists name, ev = CallValidInterface name /\ is_Some (ifCfg !! name)) \/
  fromDesired s ifCfg ev.

End ServerNotions.

(** * Properties *)

(** ** portsToLinux *)

Lemma Errorf_eta (e : Status) : e = Errorf (code e) (message e).
Proof. by destruct e. Qed.

Lemma portsLoop_code ports acc e :
  portsLoop ports acc = Err e -> code e = InvalidArgument.
Proof.
  revert acc. induction ports as [|p ports IH]; intros acc; simpl; [done|].
  destruct (Port_Location p); [apply IH|]. by intros [= <-].
Qed.

(** The port loop stops at the first port without a location. *)
Lemma portsLoop_missing_location ports acc :
  (exists p, p ∈ ports /\ Port_Location p = None) ->
  exists p, p ∈ ports /\ Port_Location p = None /\
    portsLoop ports acc =
      Err (Errorf InvalidArgument
             ("invalid interface " +:+ Port_Name p +:+
              ", does not specify a port location")).
Proof.
  revert acc. induction ports as [|p ports IH]; intros acc [q [Hq Hloc]].
  - by apply elem_of_nil in Hq.
  - simpl. destruct (Port_Location p) as [loc|] eqn:Hp.
    + apply elem_of_cons in Hq as [->|Hq]; [congruence|].
      destruct (IH (<[Port_Name p := loc]> acc)) as (p' & Hin & Hnone & Heq); [eauto|].
      exists p'. split_and!; [by apply elem_of_cons; right | done | done].
    + exists p. split_and!; [by apply elem_of_cons; left | done | done].
Qed.

(** When every port has a location the port loop succeeds and the result
    resolves exactly the declared names and those already resolved. *)
Lemma portsLoop_ok ports acc :
  Forall (fun p => is_Some (Port_Location p)) ports ->
  exists m, portsLoop ports acc = Ok m /\
    forall name, is_Some (m !! name) <->
                 is_Some (acc !! name) \/ name ∈ (Port_Name <$> ports).
Proof.
  revert acc. induction ports as [|p ports IH]; intros acc Hall; simpl.
  - exists acc. split; [done|]. intros name. rewrite elem_of_nil. tauto.
  - apply Forall_cons in Hall as [[loc Hloc] Hall]. rewrite Hloc.
    destruct (IH (<[Port_Name p := loc]> acc) Hall) as (m & Hm & Hdom).
    exists m. split; [done|]. intros name. rewrite Hdom.
    rewrite ?fmap_cons, elem_of_cons, lookup_insert_is_Some.
    clear. destruct (decide (Port_Name p = name)); intuition congruence.
Qed.

Lemma addrsLoop_code addrs acc e :
  addrsLoop addrs acc = Err e -> code e = InvalidArgument.
Proof.
  revert acc. induction addrs as [|a addrs IH]; intros acc; simpl; [done|].
  case_decide; [by intros [= <-] | apply IH].
Qed.

(** The address loop stops at the first address of prefix length zero. *)
Lemma addrsLoop_first_zero apre a apost acc :
  Forall (fun a' => GetPrefix a' ≠ 0) apre ->
  GetPrefix a = 0 ->
  addrsLoop (apre ++ a :: apost) acc =
    Err (Errorf InvalidArgument
           ("unsupported zero prefix length for address " +:+ Ipv4_Address a)).
Proof.
  intros Hpre Hz. revert acc.
  induction Hpre as [|a' apre Ha' _ IH]; intros acc; simpl.
  - by rewrite decide_True.
  - rewrite decide_False by done. apply IH.
Qed.

Lemma addrsLoop_zero addrs acc :
  (exists a, a ∈ addrs /\ GetPrefix a = 0) ->
  exists e, addrsLoop addrs acc = Err e.
Proof.
  revert acc. induction addrs as [|a addrs IH]; intros acc [z [Hz Hp]].
  - by apply elem_of_nil in Hz.
  - simpl. case_decide; [eauto|].
    apply elem_of_cons in Hz as [->|Hz]; [done|]. apply IH; eauto.
Qed.

Lemma addrsLoop_ok addrs acc :
  Forall (fun a => GetPrefix a ≠ 0) addrs ->
  exists m, addrsLoop addrs acc = Ok m.
Proof.
  intros Hall. revert acc. induction Hall as [|a addrs Ha _ IH]; intros acc; simpl.
  - eauto.
  - rewrite decide_False by done. apply IH.
Qed.

(** What a successful address loop leaves in the map: the entries it
    started from and one entry per address, the last declaration of an
    address deciding its prefix length. *)
Lemma addrsLoop_lookup addrs acc m :
  addrsLoop addrs acc = Ok m ->
  (forall k, is_Some (m !! k) <->
             is_Some (acc !! k) \/ k ∈ (Ipv4_Address <$> addrs)) /\
  (forall k v, m !! k = Some v ->
               acc !! k = Some v \/
               exists a, a ∈ addrs /\ Ipv4_Address a = k /\ GetPrefix a = v).
Proof.
  revert acc. induction addrs as [|a addrs IH]; intros acc; simpl.
  - intros [= ->]. split.
    + intros k. rewrite elem_of_nil. tauto.
    + eauto.
  - case_decide; [done|]. intros Hm.
    destruct (IH _ Hm) as [Hdom Hval]. split.
    + intros k. rewrite Hdom, elem_of_cons, lookup_insert_is_Some.
      clear. destruct (decide (Ipv4_Address a = k)); intuition congruence.
    + intros k v Hk. destruct (Hval k v Hk) as [Hacc|(a' & Hin & Hk' & Hv)].
      * apply lookup_insert_Some in Hacc as [[<- <-]|[_ Hacc]]; [|by left].
        right. exists a. split_and!; [by apply elem_of_cons; left | done | done].
      * right. exists a'. split_and!; [by apply elem_of_cons; right | done | done].
Qed.

Section PortsToLinuxFacts.

Variable fe : DeviceEthernet -> string.

Lemma ethernetsLoop_code physIntf eths r m e :
  ethernetsLoop fe physIntf eths r m = Err e -> code e = InvalidArgument.
Proof.
  revert r m. induction eths as [|x eths IH]; intros r m; simpl; [done|].
  case_decide; [by intros [= <-]|].
  destruct (physIntf !! GetPortName x); [|by intros [= <-]].
  destruct (addrsLoop _ _) eqn:Ha; [apply IH|].
  intros [= <-]. by eapply addrsLoop_code.
Qed.

Lemma ethernetsLoop_app physIntf l1 l2 r m :
  ethernetsLoop fe physIntf (l1 ++ l2) r m =
    match ethernetsLoop fe physIntf l1 r m with
    | Err e => Err e
    | Ok (r', m') => ethernetsLoop fe physIntf l2 r' m'
    end.
Proof.
  revert r m. induction l1 as [|x l1 IH]; intros r m; simpl; [done|].
  case_decide; [done|].
  destruct (physIntf !! GetPortName x); [|done].
  destruct (addrsLoop _ _); [apply IH | done].
Qed.

(** The two nested loops visit the Ethernets of all devices in order. *)
Lemma devicesLoop_flat physIntf devices r m :
  devicesLoop fe physIntf devices r m =
    ethernetsLoop fe physIntf (flat_map Ethernets devices) r m.
Proof.
  revert r m. induction devices as [|d devices IH]; intros r m; simpl; [done|].
  rewrite ethernetsLoop_app.
  destruct (ethernetsLoop fe physIntf (Ethernets d) r m) as [[r' m']|]; [apply IH|done].
Qed.

Lemma portsToLinux_code ports devices e :
  portsToLinux fe ports devices = Err e -> code e = InvalidArgument.
Proof.
  unfold portsToLinux. destruct (portsLoop ports ∅) eqn:Hp.
  - rewrite devicesLoop_flat. apply ethernetsLoop_code.
  - intros [= <-]. by eapply portsLoop_code.
Qed.

Lemma ethernetsLoop_ok physIntf eths r m :
  Forall (ethPasses physIntf) eths ->
  exists r' m', ethernetsLoop fe physIntf eths r m = Ok (r', m').
Proof.
  intros Hall. revert r m.
  induction Hall as [|x eths (Hn & [n Hres] & Hz) _ IH]; intros r m; simpl.
  - eauto.
  - rewrite decide_False by done. rewrite Hres.
    destruct (addrsLoop_ok _ ∅ Hz) as [ipv4 ->]. apply IH.
Qed.

Lemma ethernetsLoop_zero physIntf eths r m :
  (exists e a, e ∈ eths /\ a ∈ Eth_Ipv4Addresses e /\ GetPrefix a = 0) ->
  exists err, ethernetsLoop fe physIntf eths r m = Err err.
Proof.
  revert r m. induction eths as [|x eths IH]; intros r m (e & a & He & Ha & Hz).
  - by apply elem_of_nil in He.
  - simpl. case_decide; [eauto|].
    destruct (physIntf !! GetPortName x); [|eauto].
    destruct (addrsLoop _ _) eqn:Hloop; [|eauto].
    apply elem_of_cons in He as [->|He].
    + destruct (addrsLoop_zero (Eth_Ipv4Addresses x) ∅) as [err Herr]; [eauto|].
      congruence.
    + apply IH. eauto.
Qed.

(** Ethernets bound to other interfaces leave the entries of [n] alone. *)
Lemma ethernetsLoop_other physIntf eths r m r' m' n :
  Forall (fun e => physIntf !! GetPortName e ≠ Some n) eths ->
  ethernetsLoop fe physIntf eths r m = Ok (r', m') ->
  r' !! n = r !! n /\ m' !! n = m !! n.
Proof.
  intros Hall. revert r m.
  induction Hall as [|x eths Hx _ IH]; intros r m; simpl.
  - by intros [= -> ->].
  - case_decide; [done|].
    destruct (physIntf !! GetPortName x) as [k|] eqn:Hk; [|done].
    destruct (addrsLoop _ _); [|done].
    intros Hloop. destruct (IH _ _ Hloop) as [-> ->].
    assert (k ≠ n) by congruence.
    by rewrite !lookup_insert_ne.
Qed.

End PortsToLinuxFacts.

Section PortsToLinuxSpec.

Variable fe : DeviceEthernet -> string.

(** C10. When several Ethernet endpoints bind ports that resolve to the
    same physical interface [n], the desired state portsToLinux returns
    for [n] is that of the endpoint processed last: its address map holds
    exactly the addresses that endpoint declares, with their prefix
    lengths, and an address only an earlier endpoint declared on [n] is
    absent from it. The name map follows the last endpoint as well. *)
Theorem portsToLinux_last_endpoint_only
    ports devices physIntf retIntf ethMap pre e post n :
  portsToLinux fe ports devices = Ok (retIntf, ethMap) ->
  portsLoop ports ∅ = Ok physIntf ->
  flat_map Ethernets devices = pre ++ e :: post ->
  physIntf !! GetPortName e = Some n ->
  Forall (fun e' => physIntf !! GetPortName e' ≠ Some n) post ->
  exists li,
    retIntf !! n = Some li /\ ethMap !! n = Some (Eth_Name e) /\
    (forall a, is_Some (IPv4 li !! a) <->
               a ∈ (Ipv4_Address <$> Eth_Ipv4Addresses e)) /\
    (forall a m, IPv4 li !! a = Some m ->
                 exists x, x ∈ Eth_Ipv4Addresses e /\
                           Ipv4_Address x = a /\ GetPrefix x = m) /\
    (forall e' x, e' ∈ pre -> x ∈ Eth_Ipv4Addresses e' ->
                  Ipv4_Address x ∉ (Ipv4_Address <$> Eth_Ipv4Addresses e) ->
                  IPv4 li !! Ipv4_Address x = None).
Proof.
  unfold portsToLinux. intros Hrun Hports Hflat Hres Hpost.
  rewrite Hports, devicesLoop_flat, Hflat, ethernetsLoop_app in Hrun.
  destruct (ethernetsLoop fe physIntf pre ∅ ∅) as [[r1 m1]|]; [|done].
  simpl in Hrun. case_decide; [done|]. rewrite Hres in Hrun.
  destruct (addrsLoop (Eth_Ipv4Addresses e) ∅) as [ipv4|] eqn:Haddrs; [|done].
  destruct (ethernetsLoop_other _ _ _ _ _ _ _ n Hpost Hrun) as [Hr Hm].
  rewrite lookup_insert_eq in Hr. rewrite lookup_insert_eq in Hm.
  destruct (addrsLoop_lookup _ _ _ Haddrs) as [Hdom Hval].
  assert (Hdom' : forall a, is_Some (ipv4 !! a) <->
                            a ∈ (Ipv4_Address <$> Eth_Ipv4Addresses e)).
  { intros a. rewrite Hdom, lookup_empty. split; [|by right].
    intros [[? [=]]|?]; done. }
  exists {| IPv4 := ipv4 |}. simpl. split_and!; [done | done | done | |].
  - intros a m Ha. destruct (Hval a m Ha) as [Hemp|?]; [|done].
    by rewrite lookup_empty in Hemp.
  - intros e' x _ _ Hnot. apply eq_None_not_Some. by rewrite Hdom'.
Qed.

End PortsToLinuxSpec.

(** An instance of C10: e1 and e2 are both bound to eth0 and only the
    address of e2 is left. *)
Lemma portsToLinux_last_endpoint_only_witness :
  exists li,
    ({[ "eth0" := {| IPv4 := {[ "198.51.100.1" := 24 ]} |} ]}
       : gmap string linuxIntf) !! "eth0" = Some li /\
    ({[ "eth0" := "e2" ]} : gmap string string) !! "eth0" = Some (Eth_Name Lab.e2) /\
    (forall a, is_Some (IPv4 li !! a) <->
               a ∈ (Ipv4_Address <$> Eth_Ipv4Addresses Lab.e2)) /\
    (forall a m, IPv4 li !! a = Some m ->
                 exists x, x ∈ Eth_Ipv4Addresses Lab.e2 /\
                           Ipv4_Address x = a /\ GetPrefix x = m) /\
    (forall e' x, e' ∈ [Lab.e1] -> x ∈ Eth_Ipv4Addresses e' ->
                  Ipv4_Address x ∉ (Ipv4_Address <$> Eth_Ipv4Addresses Lab.e2) ->
                  IPv4 li !! Ipv4_Address x = None).
Proof.
  apply (portsToLinux_last_endpoint_only (fun e => Eth_Name e)
           [Lab.p1; Lab.p2] Lab.twoEndpoints
           {[ "p1" := "eth0"; "p2" := "eth0" ]}
           _ _ [Lab.e1] Lab.e2 [] "eth0").
  - reflexivity.
  - reflexivity.
  - reflexivity.
  - reflexivity.
  - constructor.
Defined.

(** ** The server *)

Section ServerFacts.

Context `{Collaborators}.

(** *** Only the hint channel of a server changes under a handler *)

Lemma sameCore_refl s : sameCore s s.
Proof. by repeat split. Qed.

Lemma sameCore_trans s1 s2 s3 : sameCore s1 s2 -> sameCore s2 s3 -> sameCore s1 s3.
Proof.
  intros (?&?&?&?&?) (?&?&?&?&?). repeat split; try congruence. auto.
Qed.

Lemma sendHint_core s h : sameCore s (sendHint s h).
Proof.
  unfold sendHint. destruct (hintCh s) eqn:Hch; [|apply sameCore_refl].
  repeat split; simpl; congruence.
Qed.

Lemma hintLoop_core entries s : sameCore s (hintLoop s entries).
Proof.
  revert s. induction entries as [|[k v] entries IH]; intros s; simpl.
  - apply sameCore_refl.
  - eapply sameCore_trans; [apply sendHint_core | apply IH].
Qed.

Lemma baseInterfaceConfig_core s c y s' y' r :
  baseInterfaceConfig s c y = (s', y', r) -> sameCore s s'.
Proof.
  unfold baseInterfaceConfig.
  destruct (portsToLinux _ _ _) as [[ifCfg ethMap]|e].
  2:{ intros [= <- _ _]. apply sameCore_refl. }
  destruct (hintCh s) eqn:Hch.
  - destruct (do_mapRange ethMap y) as [entries y1].
    destruct (do_mapRange ifCfg y1) as [ents y2].
    destruct (intfLoop _ _ _) as [y3 [e|]]; intros [= <- _ _]; apply hintLoop_core.
  - destruct (do_mapRange ifCfg y) as [ents y2].
    destruct (intfLoop _ _ _) as [y3 [e|]]; intros [= <- _ _]; apply sameCore_refl.
Qed.

Lemma callHandler_core fn c s y s' y' r :
  callHandler fn c s y = (s', y', r) -> sameCore s s'.
Proof.
  destruct fn as [|f]; simpl.
  - apply baseInterfaceConfig_core.
  - destruct (f c (world y)). intros [= <- _ _]. apply sameCore_refl.
Qed.

Lemma handlersLoop_core fns k c s y s' y' r :
  handlersLoop k fns c s y = (s', y', r) -> sameCore s s'.
Proof.
  revert k s y. induction fns as [|fn fns IH]; intros k s y; simpl.
  - intros [= <- _ _]. apply sameCore_refl.
  - destruct (callHandler fn c s (logInvoke k y)) as [[s1 y1] [e|]] eqn:Hcall.
    + intros [= <- _ _]. by eapply callHandler_core.
    + intros Hrest. eapply sameCore_trans; [by eapply callHandler_core | by eapply IH].
Qed.

(** SetConfig never writes the interface cache and never touches the list
    of handlers. *)
Lemma SetConfig_keeps s req y :
  intf (SetConfig s req y).1.1 = intf s /\
  configHandlers (SetConfig s req y).1.1 = configHandlers s.
Proof.
  unfold SetConfig. destruct (Req_Config req) as [c|]; [|done].
  destruct (sendHint_core s (metaHint req)) as (Hi & _ & Hh & _).
  fold (metaHint req).
  destruct (hasUnimplemented c); [done|].
  destruct (handlersLoop _ _ _ _ _) as [[s2 y2] r] eqn:Hloop.
  apply handlersLoop_core in Hloop as (Hi' & _ & Hh' & _).
  destruct r; simpl; split; congruence.
Qed.

(** Every server a program can hold has [baseInterfaceConfig] as its first
    handler, and an empty interface cache. *)
Lemma reachable_inv s :
  reachable s ->
  intf s = ∅ /\ exists rest, configHandlers s = baseHandler :: rest.
Proof.
  induction 1 as [|s ch _ IH|s fn _ IH|s f _ [IH [rest IH']]|s req y _ IH]; simpl.
  - eauto.
  - done.
  - done.
  - split; [done|]. rewrite IH'. eauto.
  - destruct (SetConfig_keeps s req y) as [-> ->]. done.
Qed.

Lemma reachable_intfHasAddr s name a :
  reachable s -> intfHasAddr s name a = false.
Proof.
  intros [Hi _]%reachable_inv. unfold intfHasAddr. by rewrite Hi, lookup_empty.
Qed.

End ServerFacts.

Section TraceFacts.

Context `{Collaborators}.

Lemma handlerCalls_app t1 t2 :
  handlerCalls (t1 ++ t2) = handlerCalls t1 ++ handlerCalls t2.
Proof.
  induction t1 as [|[] t1 IH]; simpl; [done | done | done | done | by f_equal].
Qed.

Lemma addIPCalls_app t1 t2 :
  addIPCalls (t1 ++ t2) = addIPCalls t1 ++ addIPCalls t2.
Proof.
  induction t1 as [|[] t1 IH]; simpl; [done | done | by f_equal | done | done].
Qed.

Lemma addrLoop_handlerCalls s name addrs y y' r :
  addrLoop s name addrs y = (y', r) ->
  handlerCalls (trace y') = handlerCalls (trace y).
Proof.
  revert y. induction addrs as [|[a m] addrs IH]; intros y; simpl.
  - by intros [= <- _].
  - destruct (net_ParseCIDR _) as [ipNet|err]; [|by intros [= <- _]].
    destruct (intfHasAddr s name a); [apply IH|].
    unfold do_AddIP. destruct (intf_AddIP name ipNet (world y)) as [w [err|]].
    + intros [= <- _]. simpl. rewrite handlerCalls_app. simpl. by rewrite app_nil_r.
    + intros Hrest. rewrite (IH _ Hrest). simpl.
      rewrite handlerCalls_app. simpl. by rewrite app_nil_r.
Qed.

Lemma intfLoop_handlerCalls s entries y y' r :
  intfLoop s entries y = (y', r) ->
  handlerCalls (trace y') = handlerCalls (trace y).
Proof.
  revert y. induction entries as [|[name c] entries IH]; intros y; simpl.
  - by intros [= <- _].
  - destruct (intf_ValidInterface name (world y)); simpl.
    2:{ intros [= <- _]. simpl. rewrite handlerCalls_app. simpl. by rewrite app_nil_r. }
    unfold do_mapRange. simpl. destruct (mapRange (IPv4 c) (world y)) as [addrs w].
    destruct (addrLoop _ _ _ _) as [y2 [err|]] eqn:Hloop;
      apply addrLoop_handlerCalls in Hloop; simpl in Hloop;
      rewrite handlerCalls_app in Hloop; simpl in Hloop; rewrite app_nil_r in Hloop.
    + by intros [= <- _].
    + intros Hrest. by rewrite (IH _ Hrest).
Qed.

Lemma callHandler_handlerCalls fn c s y s' y' r :
  callHandler fn c s y = (s', y', r) ->
  handlerCalls (trace y') = handlerCalls (trace y).
Proof.
  destruct fn as [|f]; simpl.
  2:{ destruct (f c (world y)). by intros [= _ <- _]. }
  unfold baseInterfaceConfig.
  destruct (portsToLinux _ _ _) as [[ifCfg ethMap]|e]; [|by intros [= _ <- _]].
  assert (Hmr : forall A (m : gmap string A) y0,
             handlerCalls (trace (do_mapRange m y0).2) = handlerCalls (trace y0)).
  { intros A m y0. unfold do_mapRange. by destruct (mapRange m (world y0)). }
  destruct (hintCh s).
  - pose proof (Hmr _ ethMap y) as H1.
    destruct (do_mapRange ethMap y) as [entries y1].
    pose proof (Hmr _ ifCfg y1) as H2.
    destruct (do_mapRange ifCfg y1) as [ents y2]. simpl in *.
    destruct (intfLoop _ _ _) as [y3 [e|]] eqn:Hloop;
      apply intfLoop_handlerCalls in Hloop; intros [= _ <- _]; simpl;
      rewrite ?handlerCalls_app, ?app_nil_r; simpl; rewrite ?app_nil_r; congruence.
  - pose proof (Hmr _ ifCfg y) as H2.
    destruct (do_mapRange ifCfg y) as [ents y2]. simpl in *.
    destruct (intfLoop _ _ _) as [y3 [e|]] eqn:Hloop;
      apply intfLoop_handlerCalls in Hloop; intros [= _ <- _]; simpl;
      rewrite ?handlerCalls_app, ?app_nil_r; simpl; rewrite ?app_nil_r; congruence.
Qed.

Lemma ranOk_core c k fns s y s' y' :
  ranOk c k fns (s, y) (s', y') -> sameCore s s'.
Proof.
  intros Hran. remember (s, y) as st eqn:Hst. remember (s', y') as st' eqn:Hst'.
  revert s y Hst. induction Hran as [k st|k fn fns s0 y0 s1 y1 st' Hcall _ IH];
    intros s y Hst; subst.
  - injection Hst as -> ->. apply sameCore_refl.
  - injection Hst as -> ->.
    eapply sameCore_trans; [by eapply callHandler_core | by eapply IH].
Qed.

Lemma ranOk_handlerCalls c k fns s y s' y' :
  ranOk c k fns (s, y) (s', y') ->
  handlerCalls (trace y') = handlerCalls (trace y) ++ seq k (length fns).
Proof.
  intros Hran. remember (s, y) as st eqn:Hst. remember (s', y') as st' eqn:Hst'.
  revert s y Hst. induction Hran as [k st|k fn fns s0 y0 s1 y1 st' Hcall _ IH];
    intros s y Hst; subst.
  - injection Hst as -> ->. simpl. by rewrite app_nil_r.
  - injection Hst as -> ->. rewrite (IH eq_refl _ _ eq_refl).
    apply callHandler_handlerCalls in Hcall. rewrite Hcall. simpl.
    rewrite handlerCalls_app. simpl. by rewrite <- app_assoc.
Qed.

(** The handler loop runs a prefix of the handlers, each returning nil,
    and either exhausts the list or stops at the first error. *)
Lemma handlersLoop_spec c fns k s y :
  (exists s1 y1,
      ranOk c k fns (s, y) (s1, y1) /\
      handlersLoop k fns c s y = (s1, y1, None))
  \/
  (exists pre fn post s1 y1 s2 y2 err,
      fns = pre ++ fn :: post /\
      ranOk c k pre (s, y) (s1, y1) /\
      callHandler fn c s1 (logInvoke (k + length pre) y1) = (s2, y2, Some err) /\
      handlersLoop k fns c s y = (s2, y2, Some err)).
Proof.
  revert k s y. induction fns as [|fn fns IH]; intros k s y; simpl.
  - left. exists s, y. split; [constructor | done].
  - destruct (callHandler fn c s (logInvoke k y)) as [[s' y'] [err|]] eqn:Hcall.
    + right. exists [], fn, fns, s, y, s', y', err. simpl.
      rewrite Nat.add_0_r. split_and!; [done | constructor | done | done].
    + destruct (IH (S k) s' y') as
        [(s1 & y1 & Hran & Hloop)
        |(pre & fn' & post & s1 & y1 & s2 & y2 & err & -> & Hran & Hfail & Hloop)].
      * left. exists s1, y1. split; [by econstructor | done].
      * right. exists (fn :: pre), fn', post, s1, y1, s2, y2, err. simpl.
        replace (k + S (length pre))%nat with (S k + length pre)%nat by lia.
        split_and!; [done | by econstructor | done | done].
Qed.

End TraceFacts.

Section ServerSpec.

Context `{Collaborators}.

(** The unsupported-field test in the words of the OTG schema. *)
Lemma hasUnimplemented_true c :
  hasUnimplemented c = true <->
  Lags c ≠ [] \/ Layer1s c ≠ [] \/ Captures c ≠ [] \/ Options c ≠ None.
Proof.
  unfold hasUnimplemented.
  destruct (Lags c), (Layer1s c), (Captures c), (Options c); simpl;
    split; intros; try done; try tauto; try (by left);
    try (by right; left); try (by right; right; left);
    try (by right; right; right).
Qed.

(** A request without a configuration is refused before anything else
    happens. *)
Lemma SetConfig_no_config s req y :
  Req_Config req = None ->
  SetConfig s req y =
    (s, y, Err (Errorf InvalidArgument
                  ("invalid request configuration received, " +:+ fmt_req req))).
Proof. intros Hreq. unfold SetConfig. by rewrite Hreq. Qed.

(** A configuration with unsupported fields is refused once the meta hint
    has been offered; nothing else has happened by then. *)
Lemma SetConfig_rejects s req c y :
  Req_Config req = Some c ->
  hasUnimplemented c = true ->
  SetConfig s req y =
    (sendHint s (metaHint req), y,
     Err (Errorf Unimplemented
            ("request contained fields that are unimplemented, " +:+ fmt_req req))).
Proof. intros Hreq Hun. unfold SetConfig. by rewrite Hreq, Hun. Qed.

(** What SetConfig does with a configuration that passes both checks. *)
Lemma SetConfig_accepts s req c y :
  Req_Config req = Some c ->
  hasUnimplemented c = false ->
  SetConfig s req y =
    match handlersLoop 0 (configHandlers s) c (sendHint s (metaHint req)) y with
    | (s2, y2, Some err) => (s2, y2, Err err)
    | (s2, y2, None) =>
        (setCfg s2 c, y2,
         Ok {| SetConfig_StatusCode_200 := Some {| Warnings := [] |} |})
    end.
Proof.
  intros Hreq Hun. unfold SetConfig. rewrite Hreq, Hun.
  destruct (sendHint_core s (metaHint req)) as (_ & _ & Hh & _).
  unfold metaHint in *. by rewrite Hh.
Qed.

(** C9. SetTransmitState returns a success acknowledgement for every
    request, never an error and never a panic, and leaves the server and
    the host as they were. *)
Theorem SetTransmitState_always_acks s req y :
  exists resp, SetTransmitState s req y = Returned (s, y, Ok resp).
Proof. unfold SetTransmitState. eauto. Qed.

(** C3, as the code has it. On a server that has no protocol handler,
    SetProtocolState calls the nil function value: the call panics and no
    status, internal or other, is returned. *)
Theorem SetProtocolState_without_handler_panics req y :
  (exists why, SetProtocolState New req y = Panicked why) /\
  (forall r, SetProtocolState New req y ≠ Returned r).
Proof. unfold SetProtocolState. simpl. split; [eauto | done]. Qed.

(** C5. A configuration with a non-empty Lags, Layer1 or Captures field, or
    with Options set, is refused with an Unimplemented status whatever
    else it contains. The host and the ghost trace come back as they
    were, so no configuration handler has been invoked, and of the server
    only the hint channel can differ: the stored configuration, the
    interface cache and the handlers are the same. *)
Theorem SetConfig_unimplemented s req c y :
  Req_Config req = Some c ->
  Lags c ≠ [] \/ Layer1s c ≠ [] \/ Captures c ≠ [] \/ Options c ≠ None ->
  exists s' msg,
    SetConfig s req y = (s', y, Err (Errorf Unimplemented msg)) /\
    sameCore s s'.
Proof.
  intros Hreq Hun%hasUnimplemented_true.
  rewrite (SetConfig_rejects _ _ _ _ Hreq Hun).
  eexists _, _. split; [done | apply sendHint_core].
Qed.

(** C4, as the code has it. The meta hint is offered to the hint channel
    before the unsupported-field constraints are checked: a configuration
    refused as unimplemented leaves the server with the hint sent, and the
    hint is in the channel whenever a channel is set and has room. *)
Theorem SetConfig_meta_hint_precedes_validation s req c y :
  Req_Config req = Some c ->
  hasUnimplemented c = true ->
  exists msg,
    SetConfig s req y =
      (sendHint s (metaHint req), y, Err (Errorf Unimplemented msg)) /\
    (forall ch, hintCh s = Some ch -> (length (buf ch) < cap ch)%nat ->
                hintCh (sendHint s (metaHint req)) =
                  Some {| buf := buf ch ++ [metaHint req]; cap := cap ch |}).
Proof.
  intros Hreq Hun. rewrite (SetConfig_rejects _ _ _ _ Hreq Hun).
  eexists. split; [done|]. intros ch Hch Hroom.
  unfold sendHint, trySend. rewrite Hch. simpl. by rewrite decide_True.
Qed.

(** The steps of the handler loop. For a configuration that passes the
    checks of SetConfig, the handlers of the list are called one after the
    other. Either all of them return nil: then every handler has been
    invoked once, the call succeeds and the configuration is the stored
    one. Or some handler is the first to return an error: then the
    handlers after it are not invoked, the call returns that very error,
    and the stored configuration is the one from before the call. *)
Lemma SetConfig_handler_steps s req c y :
  Req_Config req = Some c ->
  hasUnimplemented c = false ->
  let s0 := sendHint s (metaHint req) in
  (exists s1 y1 resp,
      ranOk c 0 (configHandlers s) (s0, y) (s1, y1) /\
      handlerCalls (trace y1) =
        handlerCalls (trace y) ++ seq 0 (length (configHandlers s)) /\
      SetConfig s req y = (setCfg s1 c, y1, Ok resp) /\
      cfg (setCfg s1 c) = Some c)
  \/
  (exists pre fn post s1 y1 s2 y2 err,
      configHandlers s = pre ++ fn :: post /\
      ranOk c 0 pre (s0, y) (s1, y1) /\
      callHandler fn c s1 (logInvoke (length pre) y1) = (s2, y2, Some err) /\
      handlerCalls (trace y2) =
        handlerCalls (trace y) ++ seq 0 (S (length pre)) /\
      SetConfig s req y = (s2, y2, Err err) /\
      cfg s2 = cfg s).
Proof.
  intros Hreq Hun s0. rewrite (SetConfig_accepts _ _ _ _ Hreq Hun). fold s0.
  destruct (handlersLoop_spec c (configHandlers s) 0 s0 y) as
    [(s1 & y1 & Hran & ->)
    |(pre & fn & post & s1 & y1 & s2 & y2 & err & Hsplit & Hran & Hfail & ->)].
  - left. eexists s1, y1, _. split_and!; [done | | done | done].
    by apply ranOk_handlerCalls in Hran.
  - right. exists pre, fn, post, s1, y1, s2, y2, err. simpl in Hfail.
    split_and!; [done | done | done | | done |].
    + rewrite (callHandler_handlerCalls _ _ _ _ _ _ _ Hfail).
      cbn [logInvoke trace].
      rewrite handlerCalls_app, (ranOk_handlerCalls _ _ _ _ _ _ _ Hran).
      cbn [handlerCalls]. by rewrite seq_S, app_assoc.
    + destruct (sendHint_core s (metaHint req)) as (_ & Hc0 & _).
      apply ranOk_core in Hran as (_ & Hc1 & _).
      apply callHandler_core in Hfail as (_ & Hc2 & _).
      unfold s0 in *. congruence.
Qed.

End ServerSpec.

Section Registration.

Context `{Collaborators}.

(** Registration appends to the list of handlers and touches nothing
    else. *)
Lemma registerAll_handlers fs s :
  configHandlers (registerAll s fs) = configHandlers s ++ (extHandler <$> fs) /\
  cfg (registerAll s fs) = cfg s.
Proof.
  unfold registerAll. revert s. induction fs as [|f fs IH]; intros s; simpl.
  - by rewrite app_nil_r.
  - destruct (IH (AddConfigHandler s (extHandler f))) as [-> ->]. simpl.
    by rewrite <- app_assoc.
Qed.

(** Registered functions that all return nil are all applied, each to the
    host the previous one left. *)
Lemma handlersLoop_allNil c fs k s y w' :
  allNil c fs (world y) w' ->
  handlersLoop k (extHandler <$> fs) c s y =
    (s, {| world := w'; trace := trace y ++ (CallHandler <$> seq k (length fs)) |},
     None).
Proof.
  revert k y. induction fs as [|f fs IH]; intros k y Hall; simpl.
  - inversion Hall; subst. destruct y; simpl. by rewrite app_nil_r.
  - inversion Hall as [|f' fs' w0 w1 w2 Hf Hrest]; subst. rewrite Hf.
    etrans;
      [exact (IH (S k) {| world := w1; trace := trace y ++ [CallHandler k] |} Hrest)|].
    simpl. by rewrite <- app_assoc.
Qed.

(** The loop stops at the first registered function that returns an
    error. *)
Lemma handlersLoop_first_error c pre f post k s y w1 w2 err :
  allNil c pre (world y) w1 ->
  f c w1 = (w2, Some err) ->
  handlersLoop k (extHandler <$> (pre ++ f :: post)) c s y =
    (s, {| world := w2;
           trace := trace y ++ (CallHandler <$> seq k (S (length pre))) |},
     Some err).
Proof.
  revert k y. induction pre as [|g pre IH]; intros k y Hall Hf; simpl.
  - inversion Hall; subst. by rewrite Hf.
  - inversion Hall as [|g' pre' w0 w3 w4 Hg Hrest]; subst. rewrite Hg.
    etrans;
      [exact (IH (S k) {| world := w3; trace := trace y ++ [CallHandler k] |}
                Hrest Hf)|].
    simpl. by rewrite <- app_assoc.
Qed.

(** C6. SetConfig invokes every registered handler in registration order.
    Take a server with no handler but its own, as [New] returns it, and
    register the functions [fs] on it with AddConfigHandler, in the order
    of the list. For a configuration that passes the checks of SetConfig,
    the server's own handler runs first, at position 0. When it returns an
    error, that error is returned and no function of [fs] is applied. When
    it returns nil, the functions of [fs] are applied in the order of their
    registration, each to the host the previous one left: if all of them
    return nil, the call succeeds, the host is the one the last function
    left, and the configuration is the stored one; if [f] is the first of
    them to return an error, the call returns that very error, the host is
    the one [f] left, the functions registered after [f] are not applied,
    and the stored configuration is the one from before the call. *)
Theorem SetConfig_runs_handlers_in_registration_order
    s0 fs req c y s1 y1 r0 :
  configHandlers s0 = [baseHandler] ->
  Req_Config req = Some c ->
  hasUnimplemented c = false ->
  baseInterfaceConfig (sendHint (registerAll s0 fs) (metaHint req)) c
    (logInvoke 0 y) = (s1, y1, r0) ->
  match r0 with
  | Some err =>
      SetConfig (registerAll s0 fs) req y = (s1, y1, Err err) /\
      cfg s1 = cfg s0
  | None =>
      (forall w',
          allNil c fs (world y1) w' ->
          SetConfig (registerAll s0 fs) req y =
            (setCfg s1 c,
             {| world := w';
                trace := trace y1 ++ (CallHandler <$> seq 1 (length fs)) |},
             Ok {| SetConfig_StatusCode_200 := Some {| Warnings := [] |} |}) /\
          cfg (setCfg s1 c) = Some c) /\
      (forall pre f post w1 w2 err,
          fs = pre ++ f :: post ->
          allNil c pre (world y1) w1 ->
          f c w1 = (w2, Some err) ->
          SetConfig (registerAll s0 fs) req y =
            (s1,
             {| world := w2;
                trace := trace y1 ++ (CallHandler <$> seq 1 (S (length pre))) |},
             Err err) /\
          cfg s1 = cfg s0)
  end.
Proof.
  intros Hh Hreq Hun Hbase.
  destruct (registerAll_handlers fs s0) as [Hhs Hcfg].
  assert (Hc1 : cfg s1 = cfg s0).
  { apply baseInterfaceConfig_core in Hbase as (_ & -> & _).
    destruct (sendHint_core (registerAll s0 fs) (metaHint req)) as (_ & -> & _).
    done. }
  rewrite (SetConfig_accepts _ _ _ _ Hreq Hun), Hhs, Hh. simpl. rewrite Hbase.
  destruct r0 as [err|]; [done|]. split.
  - intros w' Hall. by rewrite (handlersLoop_allNil _ _ _ _ _ _ Hall).
  - intros pre f post w1 w2 err -> Hall Hf.
    by rewrite (handlersLoop_first_error _ _ _ _ _ _ _ _ _ _ Hall Hf).
Qed.

End Registration.

Section Validation.

Context `{Collaborators}.

(** When portsToLinux fails, the base handler returns its error at once:
    the server and the host are as they were. *)
Lemma baseInterfaceConfig_invalid s c y e :
  portsToLinux fmt_eth (Ports c) (Devices c) = Err e ->
  baseInterfaceConfig s c y = (s, y, Some e).
Proof. intros He. unfold baseInterfaceConfig. by rewrite He. Qed.

(** On a server a program can hold, a configuration portsToLinux refuses
    makes SetConfig fail in the first handler. *)
Lemma SetConfig_invalid s req c y e :
  reachable s ->
  Req_Config req = Some c ->
  hasUnimplemented c = false ->
  portsToLinux fmt_eth (Ports c) (Devices c) = Err e ->
  SetConfig s req y = (sendHint s (metaHint req), logInvoke 0 y, Err e).
Proof.
  intros (_ & rest & Hh)%reachable_inv Hreq Hun He.
  rewrite (SetConfig_accepts _ _ _ _ Hreq Hun), Hh. simpl.
  by rewrite (baseInterfaceConfig_invalid _ _ _ _ He).
Qed.

(** The port loop stops at the first port without a location and names
    it. *)
Lemma portsLoop_first_missing pre p post acc :
  Forall (fun q => is_Some (Port_Location q)) pre ->
  Port_Location p = None ->
  portsLoop (pre ++ p :: post) acc =
    Err (Errorf InvalidArgument
           ("invalid interface " +:+ Port_Name p +:+
            ", does not specify a port location")).
Proof.
  intros Hpre Hp. revert acc.
  induction Hpre as [|q pre [loc Hq] _ IH]; intros acc; simpl.
  - by rewrite Hp.
  - rewrite Hq. apply IH.
Qed.

(** A list with a port without a location splits at the first such port. *)
Lemma first_port_without_location ports :
  (exists p, p ∈ ports /\ Port_Location p = None) ->
  exists pre p post,
    ports = pre ++ p :: post /\
    Forall (fun q => is_Some (Port_Location q)) pre /\
    Port_Location p = None.
Proof.
  induction ports as [|q ports IH]; intros (p & Hin & Hp).
  - by apply elem_of_nil in Hin.
  - destruct (Port_Location q) as [loc|] eqn:Hq.
    + apply elem_of_cons in Hin as [->|Hin]; [congruence|].
      destruct IH as (pre & p' & post & -> & Hpre & Hp'); [eauto|].
      exists (q :: pre), p', post. split_and!; [done | | done].
      constructor; [by rewrite Hq | done].
    + exists [], q, ports. split_and!; [done | constructor | done].
Qed.

(** C8, as the code has it. A configuration that passes the
    unsupported-field check and has a port without a location makes
    SetConfig fail with an InvalidArgument status that names the first such
    port: the one all of whose predecessors in the list of ports have a
    location. The base handler is entered and returns without any effect:
    the server is as SetConfig handed it over, with the meta hint offered
    and no interface_map hint, and the host is untouched, with no call into
    the host-networking package. *)
Theorem SetConfig_port_without_location s req c y :
  reachable s ->
  Req_Config req = Some c ->
  hasUnimplemented c = false ->
  (exists p, p ∈ Ports c /\ Port_Location p = None) ->
  exists pre p post,
    Ports c = pre ++ p :: post /\
    Forall (fun q => is_Some (Port_Location q)) pre /\
    Port_Location p = None /\
    SetConfig s req y =
      (sendHint s (metaHint req), logInvoke 0 y,
       Err (Errorf InvalidArgument
              ("invalid interface " +:+ Port_Name p +:+
               ", does not specify a port location"))) /\
    world (logInvoke 0 y) = world y /\
    trace (logInvoke 0 y) = trace y ++ [CallHandler 0] /\
    addIPCalls (trace (logInvoke 0 y)) = addIPCalls (trace y).
Proof.
  intros Hs Hreq Hun Hp.
  destruct (first_port_without_location _ Hp) as (pre & p & post & Hsplit & Hpre & Hloc).
  exists pre, p, post. split_and!; [done | done | done | | done | done |].
  - apply (SetConfig_invalid s req c y _ Hs Hreq Hun).
    unfold portsToLinux. rewrite Hsplit.
    by rewrite (portsLoop_first_missing _ _ _ _ Hpre Hloc).
  - simpl. rewrite addIPCalls_app. simpl. by rewrite app_nil_r.
Qed.

(** With every port located, declared port names resolve. *)
Lemma ethClean_passes ports physIntf e :
  Forall (fun p => is_Some (Port_Location p)) ports ->
  portsLoop ports ∅ = Ok physIntf ->
  ethDeclared ports e ->
  GetPortName e ≠ "" /\ is_Some (physIntf !! GetPortName e).
Proof.
  intros Hall Hloop [Hne Hin]. split; [done|].
  destruct (portsLoop_ok ports ∅ Hall) as (m & Hm & Hdom).
  assert (m = physIntf) as -> by congruence.
  apply Hdom. by right.
Qed.

(** C7, as the code has it. A configuration that passes the
    unsupported-field check and in which some Ethernet declares an IPv4
    address of prefix length zero makes SetConfig fail with an
    InvalidArgument status before any address is applied: the host is
    untouched and no AddIP call is made. The status names the zero-prefix
    address when nothing before it in processing order fails validation:
    every port has a location, every earlier Ethernet is bound to a
    declared port and has no zero prefix, and so does the Ethernet of the
    address up to that address. *)
Theorem SetConfig_zero_prefix s req c y :
  reachable s ->
  Req_Config req = Some c ->
  hasUnimplemented c = false ->
  (exists d e a, d ∈ Devices c /\ e ∈ Ethernets d /\
                 a ∈ Eth_Ipv4Addresses e /\ GetPrefix a = 0) ->
  exists msg,
    SetConfig s req y =
      (sendHint s (metaHint req), logInvoke 0 y,
       Err (Errorf InvalidArgument msg)) /\
    world (logInvoke 0 y) = world y /\
    addIPCalls (trace (logInvoke 0 y)) = addIPCalls (trace y) /\
    (forall pre e post apre a apost,
        Forall (fun p => is_Some (Port_Location p)) (Ports c) ->
        flat_map Ethernets (Devices c) = pre ++ e :: post ->
        Forall (ethClean (Ports c)) pre ->
        ethDeclared (Ports c) e ->
        Eth_Ipv4Addresses e = apre ++ a :: apost ->
        Forall (fun a' => GetPrefix a' ≠ 0) apre ->
        GetPrefix a = 0 ->
        msg = "unsupported zero prefix length for address " +:+ Ipv4_Address a).
Proof.
  intros Hs Hreq Hun (d & e & a & Hd & He & Ha & Hz).
  assert (Hfail : exists err, portsToLinux fmt_eth (Ports c) (Devices c) = Err err).
  { unfold portsToLinux. destruct (portsLoop (Ports c) ∅) as [physIntf|err]; [|eauto].
    rewrite devicesLoop_flat. apply ethernetsLoop_zero.
    exists e, a. split_and!; [|done|done].
    apply list_elem_of_In, in_flat_map. exists d.
    split; by apply list_elem_of_In. }
  destruct Hfail as [err Herr].
  pose proof (portsToLinux_code _ _ _ _ Herr) as Hcode.
  exists (message err). split_and!.
  - rewrite (SetConfig_invalid _ _ _ _ _ Hs Hreq Hun Herr).
    by rewrite (Errorf_eta err), Hcode.
  - done.
  - simpl. rewrite addIPCalls_app. simpl. by rewrite app_nil_r.
  - intros pre e0 post apre a0 apost Hports Hflat Hpre He0 Haddrs Hapre Hz0.
    revert Herr. unfold portsToLinux.
    destruct (portsLoop_ok (Ports c) ∅ Hports) as (physIntf & Hloop & _).
    rewrite Hloop, devicesLoop_flat, Hflat, ethernetsLoop_app.
    destruct (ethernetsLoop_ok fmt_eth physIntf pre ∅ ∅) as (r1 & m1 & ->).
    { eapply Forall_impl; [exact Hpre|]. intros x [Hx Hnz].
      destruct (ethClean_passes _ _ _ Hports Hloop Hx) as [? ?].
      by split_and!. }
    destruct (ethClean_passes _ _ _ Hports Hloop He0) as [Hne [n Hn]].
    simpl. rewrite decide_False by done. rewrite Hn, Haddrs.
    rewrite (addrsLoop_first_zero _ _ _ _ Hapre Hz0).
    by intros [= <-].
Qed.

End Validation.

(** ** The interface cache is never written *)

Section Cache.

Context `{Collaborators}.

(** After [baseInterfaceConfig], the handlers a program can register are
    functions of its own. *)
Lemma reachable_handlers s :
  reachable s -> exists fs, configHandlers s = baseHandler :: (extHandler <$> fs).
Proof.
  induction 1 as [|s ch _ IH|s fn _ IH|s f _ [fs IH]|s req y _ IH]; simpl.
  - by exists [].
  - done.
  - done.
  - exists (fs ++ [f]). by rewrite IH, fmap_app.
  - by destruct (SetConfig_keeps s req y) as [_ ->].
Qed.

Lemma empty_cache_intfHasAddr s name a :
  intf s = ∅ -> intfHasAddr s name a = false.
Proof. intros Hi. unfold intfHasAddr. by rewrite Hi, lookup_empty. Qed.

(** With an empty cache no address is skipped: an address loop that
    succeeds has called AddIP once per address. *)
Lemma addrLoop_count s name addrs y y' :
  intf s = ∅ ->
  addrLoop s name addrs y = (y', None) ->
  length (addIPCalls (trace y')) = (length (addIPCalls (trace y)) + length addrs)%nat.
Proof.
  intros Hi. revert y. induction addrs as [|[a m] addrs IH]; intros y; simpl.
  - intros [= <-]. lia.
  - destruct (net_ParseCIDR _) as [ipNet|err]; [|done].
    rewrite (empty_cache_intfHasAddr _ _ _ Hi).
    unfold do_AddIP. destruct (intf_AddIP name ipNet (world y)) as [w [err|]]; [done|].
    intros Hrest. rewrite (IH _ Hrest). simpl.
    rewrite addIPCalls_app, length_app. simpl. lia.
Qed.

Lemma intfLoop_count s entries y y' :
  intf s = ∅ ->
  intfLoop s entries y = (y', None) ->
  length (addIPCalls (trace y')) =
    (length (addIPCalls (trace y)) +
     sum_list_with (fun e => size (IPv4 e.2)) entries)%nat.
Proof.
  intros Hi. revert y. induction entries as [|[name c] entries IH]; intros y; simpl.
  - intros [= <-]. lia.
  - destruct (intf_ValidInterface name (world y)); simpl; [|done].
    unfold do_mapRange. simpl.
    pose proof (mapRange_perm _ (IPv4 c) (world y)) as Hperm.
    destruct (mapRange (IPv4 c) (world y)) as [addrs w]. simpl in Hperm.
    destruct (addrLoop _ _ _ _) as [y2 [err|]] eqn:Hloop; [done|].
    apply (addrLoop_count _ _ _ _ _ Hi) in Hloop. simpl in Hloop.
    rewrite addIPCalls_app in Hloop. simpl in Hloop. rewrite app_nil_r in Hloop.
    intros Hrest. rewrite (IH _ Hrest), Hloop.
    rewrite (Permutation_length Hperm), length_map_to_list. lia.
Qed.

(** On a server with an empty cache, a successful run of the base handler
    has called AddIP once for every pair of the desired state. *)
Lemma baseInterfaceConfig_count s c y s' y' :
  intf s = ∅ ->
  baseInterfaceConfig s c y = (s', y', None) ->
  exists ifCfg ethMap,
    portsToLinux fmt_eth (Ports c) (Devices c) = Ok (ifCfg, ethMap) /\
    length (addIPCalls (trace y')) =
      (length (addIPCalls (trace y)) + desiredCount ifCfg)%nat.
Proof.
  intros Hi. unfold baseInterfaceConfig.
  destruct (portsToLinux _ _ _) as [[ifCfg ethMap]|e]; [|done].
  intros Hrun. exists ifCfg, ethMap. split; [done|]. revert Hrun.
  assert (Hgo : forall s1 y1, intf s1 = ∅ -> trace y1 = trace y ->
    (let '(entries, y2) := do_mapRange ifCfg y1 in
     match intfLoop s1 entries y2 with
     | (y3, Some err) => (s1, y3, Some err)
     | (y3, None) => (s1, do_SendARP false y3, None)
     end) = (s', y', None) ->
    length (addIPCalls (trace y')) =
      (length (addIPCalls (trace y)) + desiredCount ifCfg)%nat).
  { intros s1 y1 Hi1 Ht. unfold do_mapRange.
    pose proof (mapRange_perm _ ifCfg (world y1)) as Hperm.
    destruct (mapRange ifCfg (world y1)) as [entries w]. simpl in Hperm.
    destruct (intfLoop _ _ _) as [y3 [err|]] eqn:Hloop; [done|].
    apply (intfLoop_count _ _ _ _ Hi1) in Hloop. simpl in Hloop.
    intros [= _ <-]. simpl. rewrite addIPCalls_app. simpl. rewrite app_nil_r.
    rewrite Hloop, Ht. unfold desiredCount. by rewrite Hperm. }
  destruct (hintCh s).
  - unfold do_mapRange at 1. destruct (mapRange ethMap (world y)) as [ents w].
    apply Hgo; [|done]. destruct (hintLoop_core ents s) as [-> _]. done.
  - by apply Hgo.
Qed.

(** Handlers of the embedding program make no call of this package. *)
Lemma handlersLoop_ext_addIPCalls c fs k s y s' y' r :
  handlersLoop k (extHandler <$> fs) c s y = (s', y', r) ->
  addIPCalls (trace y') = addIPCalls (trace y).
Proof.
  revert k s y. induction fs as [|f fs IH]; intros k s y; simpl.
  - by intros [= _ <- _].
  - destruct (f c (world y)) as [w [err|]].
    + intros [= _ <- _]. simpl. rewrite addIPCalls_app. simpl. by rewrite app_nil_r.
    + intros Hrest. rewrite (IH _ _ _ Hrest). simpl.
      rewrite addIPCalls_app. simpl. by rewrite app_nil_r.
Qed.

(** Every successful SetConfig on a server a program can hold, the first
    or a repeated one, calls AddIP once for every pair of the desired
    state. *)
Lemma SetConfig_count s req c y s' y' r :
  reachable s ->
  Req_Config req = Some c ->
  SetConfig s req y = (s', y', Ok r) ->
  exists ifCfg ethMap,
    portsToLinux fmt_eth (Ports c) (Devices c) = Ok (ifCfg, ethMap) /\
    length (addIPCalls (trace y')) =
      (length (addIPCalls (trace y)) + desiredCount ifCfg)%nat.
Proof.
  intros Hs Hreq. destruct (reachable_handlers s Hs) as [fs Hfs].
  destruct (reachable_inv s Hs) as [Hi _].
  destruct (hasUnimplemented c) eqn:Hun.
  { by rewrite (SetConfig_rejects _ _ _ _ Hreq Hun). }
  rewrite (SetConfig_accepts _ _ _ _ Hreq Hun), Hfs. simpl.
  destruct (baseInterfaceConfig _ _ _) as [[s1 y1] [err|]] eqn:Hbase; [done|].
  destruct (handlersLoop _ _ _ _ _) as [[s2 y2] [err|]] eqn:Hrest; [done|].
  intros [= _ <- _].
  apply handlersLoop_ext_addIPCalls in Hrest. rewrite Hrest.
  apply baseInterfaceConfig_count in Hbase as (ifCfg & ethMap & Hp & Hn).
  - exists ifCfg, ethMap. split; [done|]. rewrite Hn. simpl.
    rewrite addIPCalls_app. simpl. by rewrite app_nil_r.
  - destruct (sendHint_core s (metaHint req)) as [-> _]. done.
Qed.

(** C1, as the code has it. On a server a program can hold, when the same
    configuration is pushed twice and both pushes succeed, the second push
    makes as many AddIP calls as the first: one for every interface and
    address pair of the desired state. No address is skipped, since the
    interface cache is empty before and after each push. *)
Theorem SetConfig_twice_applies_every_address_twice
    s req c y s1 y1 r1 s2 y2 r2 :
  reachable s ->
  Req_Config req = Some c ->
  SetConfig s req y = (s1, y1, Ok r1) ->
  SetConfig s1 req y1 = (s2, y2, Ok r2) ->
  exists ifCfg ethMap,
    portsToLinux fmt_eth (Ports c) (Devices c) = Ok (ifCfg, ethMap) /\
    length (addIPCalls (trace y1)) =
      (length (addIPCalls (trace y)) + desiredCount ifCfg)%nat /\
    length (addIPCalls (trace y2)) =
      (length (addIPCalls (trace y1)) + desiredCount ifCfg)%nat /\
    (forall name a, intfHasAddr s1 name a = false).
Proof.
  intros Hs Hreq H1 H2.
  assert (Hs1 : reachable s1).
  { pose proof (reach_SetConfig s req y Hs) as Hr. by rewrite H1 in Hr. }
  destruct (SetConfig_count _ _ _ _ _ _ _ Hs Hreq H1) as (ifCfg & ethMap & Hp & Hn1).
  destruct (SetConfig_count _ _ _ _ _ _ _ Hs1 Hreq H2) as (ifCfg' & ethMap' & Hp' & Hn2).
  assert (ifCfg' = ifCfg) as -> by congruence.
  exists ifCfg, ethMap. split_and!; [done | done | done |].
  intros name a. by apply reachable_intfHasAddr.
Qed.

(** C2, as the code has it. On a server a program can hold, after a
    successful SetConfig the desired state has been computed from the
    configuration and the interface cache is empty: it equals the desired
    state only when that is empty too. *)
Theorem SetConfig_never_caches s req c y s' y' r :
  reachable s ->
  Req_Config req = Some c ->
  SetConfig s req y = (s', y', Ok r) ->
  exists ifCfg ethMap,
    portsToLinux fmt_eth (Ports c) (Devices c) = Ok (ifCfg, ethMap) /\
    intf s' = ∅ /\
    (intf s' = ifCfg <-> ifCfg = ∅).
Proof.
  intros Hs Hreq Hrun.
  destruct (SetConfig_count _ _ _ _ _ _ _ Hs Hreq Hrun) as (ifCfg & ethMap & Hp & _).
  assert (Hi : intf s' = ∅).
  { pose proof (reach_SetConfig s req y Hs) as Hr. rewrite Hrun in Hr.
    by apply reachable_inv in Hr as [? _]. }
  exists ifCfg, ethMap. split_and!; [done | done |].
  rewrite Hi. split; congruence.
Qed.

End Cache.

(** ** The server on the laboratory host *)

Section OnTheLabHost.

Import Lab.

(** An instance of C5: the scenario with a link-aggregation group. *)
Lemma SetConfig_unimplemented_witness :
  exists s' msg,
    SetConfig New (request (withLag scenario)) host0 =
      (s', host0, Err (Errorf Unimplemented msg)) /\
    sameCore New s'.
Proof.
  apply (SetConfig_unimplemented New (request (withLag scenario))
           (withLag scenario) host0).
  - reflexivity.
  - left. simpl. discriminate.
Defined.

(** An instance of C4 as the code has it. *)
Lemma SetConfig_meta_hint_precedes_validation_witness :
  exists msg,
    SetConfig hinted (request (withLag scenario)) host0 =
      (sendHint hinted (metaHint (request (withLag scenario))), host0,
       Err (Errorf Unimplemented msg)) /\
    (forall ch, hintCh hinted = Some ch -> (length (buf ch) < cap ch)%nat ->
                hintCh (sendHint hinted (metaHint (request (withLag scenario)))) =
                  Some {| buf := buf ch ++ [metaHint (request (withLag scenario))];
                          cap := cap ch |}).
Proof.
  apply (SetConfig_meta_hint_precedes_validation hinted
           (request (withLag scenario)) (withLag scenario) host0).
  - reflexivity.
  - reflexivity.
Defined.

(** C4 fails as stated: a configuration with a link-aggregation group is
    refused as unimplemented, and the hint channel, empty before the call,
    holds the meta hint after it. *)
Lemma SetConfig_meta_hint_counterexample :
  hintCh hinted = Some {| buf := []; cap := 4 |} /\
  exists s' y' e,
    SetConfig hinted (request (withLag scenario)) host0 = (s', y', Err e) /\
    code e = Unimplemented /\
    hintCh s' =
      Some {| buf := [{| Group := "meta"; Key := "SetConfig";
                         Val := prototext_Format (request (withLag scenario)) |}];
              cap := 4 |}.
Proof.
  split; [reflexivity|].
  eexists _, _, _. split; [reflexivity|]. split; reflexivity.
Qed.

(** An instance of C6: the functions of [threeFns], which are passFn,
    failFn and passFn, are registered on [New] in this order; the base handler and passFn return nil, failFn returns
    its error, and the last function is not applied. *)
Lemma SetConfig_runs_handlers_in_registration_order_witness :
  (forall w',
      allNil scenario threeFns (world baseOfFour.1.2) w' ->
      SetConfig (registerAll New threeFns) (request scenario) host0 =
        (setCfg baseOfFour.1.1 scenario,
         {| world := w';
            trace := trace baseOfFour.1.2 ++
                     (CallHandler <$> seq 1 (length threeFns)) |},
         Ok {| SetConfig_StatusCode_200 := Some {| Warnings := [] |} |}) /\
      cfg (setCfg baseOfFour.1.1 scenario) = Some scenario) /\
  (forall pre f post w1 w2 err,
      threeFns = pre ++ f :: post ->
      allNil scenario pre (world baseOfFour.1.2) w1 ->
      f scenario w1 = (w2, Some err) ->
      SetConfig (registerAll New threeFns) (request scenario) host0 =
        (baseOfFour.1.1,
         {| world := w2;
            trace := trace baseOfFour.1.2 ++
                     (CallHandler <$> seq 1 (S (length pre))) |},
         Err err) /\
      cfg baseOfFour.1.1 = cfg New).
Proof.
  apply (SetConfig_runs_handlers_in_registration_order
           New threeFns (request scenario) scenario host0
           baseOfFour.1.1 baseOfFour.1.2 None).
  - reflexivity.
  - reflexivity.
  - reflexivity.
  - reflexivity.
Defined.

(** On that server the third handler stops the call: its error comes back
    as it is and the fourth handler is not invoked. *)
Example SetConfig_stops_at_failing_handler :
  exists s' y',
    SetConfig fourHandlers (request scenario) host0 = (s', y', Err unavailable) /\
    handlerCalls (trace y') = [0; 1; 2]%nat /\ cfg s' = None.
Proof. eexists _, _. split_and!; reflexivity. Qed.

(** An instance of C8 as the code has it: the ports are q0, p1 and q1, of
    which q0 and q1 have no location, and q0 is named. *)
Lemma SetConfig_port_without_location_witness :
  exists pre p post,
    Ports (withPorts [q0; p1; q1] (Devices scenario)) = pre ++ p :: post /\
    Forall (fun q => is_Some (Port_Location q)) pre /\
    Port_Location p = None /\
    SetConfig hinted (request (withPorts [q0; p1; q1] (Devices scenario))) host0 =
      (sendHint hinted
         (metaHint (request (withPorts [q0; p1; q1] (Devices scenario)))),
       logInvoke 0 host0,
       Err (Errorf InvalidArgument
              ("invalid interface " +:+ Port_Name p +:+
               ", does not specify a port location"))) /\
    world (logInvoke 0 host0) = world host0 /\
    trace (logInvoke 0 host0) = trace host0 ++ [CallHandler 0] /\
    addIPCalls (trace (logInvoke 0 host0)) = addIPCalls (trace host0).
Proof.
  apply (SetConfig_port_without_location hinted
           (request (withPorts [q0; p1; q1] (Devices scenario)))
           (withPorts [q0; p1; q1] (Devices scenario)) host0).
  - apply reach_SetHintChannel, reach_New.
  - reflexivity.
  - reflexivity.
  - exists q0. split; [|reflexivity]. apply elem_of_cons. by left.
Defined.

(** With those ports the status names q0, the first port without a
    location, and not q1. *)
Example SetConfig_names_first_port :
  exists s' y',
    SetConfig hinted (request (withPorts [q0; p1; q1] (Devices scenario))) host0 =
      (s', y',
       Err (Errorf InvalidArgument
              "invalid interface q0, does not specify a port location")).
Proof. eexists _, _. reflexivity. Qed.

(** C8 fails as stated: a configuration with a port without a location
    and a link-aggregation group is refused as unimplemented, not as an
    invalid argument. *)
Lemma SetConfig_port_without_location_counterexample :
  p0 ∈ Ports (withLag noLocation) /\ Port_Location p0 = None /\
  exists s' y' e,
    SetConfig New (request (withLag noLocation)) host0 = (s', y', Err e) /\
    code e = Unimplemented /\ code e ≠ InvalidArgument.
Proof.
  split_and!; [|reflexivity|].
  - apply elem_of_cons. right. apply elem_of_cons. by left.
  - eexists _, _, _. split_and!; [reflexivity | reflexivity | discriminate].
Qed.

(** An instance of C7 as the code has it. *)
Lemma SetConfig_zero_prefix_witness :
  exists msg,
    SetConfig hinted (request zeroPrefix) host0 =
      (sendHint hinted (metaHint (request zeroPrefix)), logInvoke 0 host0,
       Err (Errorf InvalidArgument msg)) /\
    world (logInvoke 0 host0) = world host0 /\
    addIPCalls (trace (logInvoke 0 host0)) = addIPCalls (trace host0) /\
    (forall pre e post apre a apost,
        Forall (fun p => is_Some (Port_Location p)) (Ports zeroPrefix) ->
        flat_map Ethernets (Devices zeroPrefix) = pre ++ e :: post ->
        Forall (ethClean (Ports zeroPrefix)) pre ->
        ethDeclared (Ports zeroPrefix) e ->
        Eth_Ipv4Addresses e = apre ++ a :: apost ->
        Forall (fun a' => GetPrefix a' ≠ 0) apre ->
        GetPrefix a = 0 ->
        msg = "unsupported zero prefix length for address " +:+ Ipv4_Address a).
Proof.
  apply (SetConfig_zero_prefix hinted (request zeroPrefix) zeroPrefix host0).
  - apply reach_SetHintChannel, reach_New.
  - reflexivity.
  - reflexivity.
  - exists {| Ethernets := [eth "e1" "p1" [addr "192.0.2.1" 0]]; Device_Name := "d1" |},
      (eth "e1" "p1" [addr "192.0.2.1" 0]), (addr "192.0.2.1" 0).
    split_and!; [by apply elem_of_cons; left | by apply elem_of_cons; left
                | by apply elem_of_cons; left | reflexivity].
Defined.

(** The status of that call does name the address. *)
Example SetConfig_zero_prefix_names_address :
  exists s' y',
    SetConfig hinted (request zeroPrefix) host0 =
      (s', y',
       Err (Errorf InvalidArgument
              "unsupported zero prefix length for address 192.0.2.1")).
Proof. eexists _, _. reflexivity. Qed.

(** C7 fails as stated: a configuration with a zero-prefix address and a
    link-aggregation group is refused as unimplemented, not as an invalid
    argument. *)
Lemma SetConfig_zero_prefix_counterexample :
  (exists d e a, d ∈ Devices (withLag zeroPrefix) /\ e ∈ Ethernets d /\
                 a ∈ Eth_Ipv4Addresses e /\ GetPrefix a = 0) /\
  exists s' y' e,
    SetConfig New (request (withLag zeroPrefix)) host0 = (s', y', Err e) /\
    code e = Unimplemented /\ code e ≠ InvalidArgument.
Proof.
  split.
  - exists {| Ethernets := [eth "e1" "p1" [addr "192.0.2.1" 0]]; Device_Name := "d1" |},
      (eth "e1" "p1" [addr "192.0.2.1" 0]), (addr "192.0.2.1" 0).
    split_and!; [by apply elem_of_cons; left | by apply elem_of_cons; left
                | by apply elem_of_cons; left | reflexivity].
  - eexists _, _, _. split_and!; [reflexivity | reflexivity | discriminate].
Qed.

(** An instance of C1 as the code has it: the scenario pushed twice on a
    new server. *)
Lemma SetConfig_twice_applies_every_address_twice_witness :
  exists ifCfg ethMap,
    portsToLinux fmt_eth (Ports scenario) (Devices scenario) = Ok (ifCfg, ethMap) /\
    length (addIPCalls (trace sys1)) =
      (length (addIPCalls (trace host0)) + desiredCount ifCfg)%nat /\
    length (addIPCalls (trace sys2)) =
      (length (addIPCalls (trace sys1)) + desiredCount ifCfg)%nat /\
    (forall name a, intfHasAddr server1 name a = false).
Proof.
  apply (SetConfig_twice_applies_every_address_twice
           New (request scenario) scenario host0 server1 sys1 ack server2 sys2 ack).
  - apply reach_New.
  - reflexivity.
  - reflexivity.
  - reflexivity.
Defined.

(** The two pushes in full: both succeed, the first makes one AddIP call
    and the second makes the same call again. *)
Example SetConfig_scenario_twice :
  exists s1 y1 r1 s2 y2 r2,
    SetConfig New (request scenario) host0 = (s1, y1, Ok r1) /\
    SetConfig s1 (request scenario) y1 = (s2, y2, Ok r2) /\
    addIPCalls (trace y1) = [("eth0", net31)] /\
    intfHasAddr s1 "eth0" "192.0.2.1" = false /\
    addIPCalls (trace y2) = [("eth0", net31); ("eth0", net31)].
Proof.
  eexists _, _, _, _, _, _.
  split_and!; [reflexivity | reflexivity
              | reflexivity | reflexivity | reflexivity].
Qed.

(** An instance of C2 as the code has it: the scenario pushed on a new
    server. *)
Lemma SetConfig_never_caches_witness :
  exists ifCfg ethMap,
    portsToLinux fmt_eth (Ports scenario) (Devices scenario) = Ok (ifCfg, ethMap) /\
    intf server1 = ∅ /\
    (intf server1 = ifCfg <-> ifCfg = ∅).
Proof.
  apply (SetConfig_never_caches New (request scenario) scenario host0
           server1 sys1 ack).
  - apply reach_New.
  - reflexivity.
  - reflexivity.
Defined.

(** The scenario in full: the call succeeds, the desired state maps eth0 to
    192.0.2.1 with prefix length 31, and the cache after the call has no
    entry for eth0. *)
Example SetConfig_scenario_cache :
  exists s1 y1 r1 ethMap,
    SetConfig New (request scenario) host0 = (s1, y1, Ok r1) /\
    portsToLinux fmt_eth (Ports scenario) (Devices scenario) =
      Ok ({[ "eth0" := {| IPv4 := {[ "192.0.2.1" := 31 ]} |} ]}, ethMap) /\
    intf s1 = ∅ /\
    intf s1 !! "eth0" = None.
Proof.
  eexists _, _, _, _.
  split_and!; [reflexivity | reflexivity
              | reflexivity | reflexivity].
Qed.

End OnTheLabHost.

(** * Further properties of portsToLinux *)

Lemma portsLoop_located ports acc m :
  portsLoop ports acc = Ok m -> Forall (fun p => is_Some (Port_Location p)) ports.
Proof.
  revert acc. induction ports as [|p ports IH]; intros acc; simpl; [by constructor|].
  destruct (Port_Location p) eqn:Hp; [|done].
  intros Hloop. constructor; [by rewrite Hp | by eapply IH].
Qed.

Lemma addrsLoop_nonzero addrs acc m :
  addrsLoop addrs acc = Ok m -> Forall (fun a => GetPrefix a ≠ 0) addrs.
Proof.
  revert acc. induction addrs as [|a addrs IH]; intros acc; simpl; [by constructor|].
  case_decide; [done|]. intros Hloop. constructor; [done | by eapply IH].
Qed.

(** Where a resolved name comes from: some declared port carries it and
    the location. *)
Lemma portsLoop_origin ports acc m k n :
  portsLoop ports acc = Ok m ->
  m !! k = Some n ->
  acc !! k = Some n \/
  exists p, p ∈ ports /\ Port_Name p = k /\ Port_Location p = Some n.
Proof.
  revert acc. induction ports as [|p ports IH]; intros acc; simpl.
  - intros [= ->]. by left.
  - destruct (Port_Location p) as [loc|] eqn:Hp; [|done].
    intros Hloop Hk. destruct (IH _ Hloop Hk) as [Hacc|(q & Hq & Hn & Hl)].
    + apply lookup_insert_Some in Hacc as [[<- <-]|[_ Hacc]]; [|by left].
      right. exists p. split_and!; [by apply elem_of_cons; left | done | done].
    + right. exists q. split_and!; [by apply elem_of_cons; right | done | done].
Qed.

Lemma portsLoop_app l1 l2 acc :
  portsLoop (l1 ++ l2) acc =
    match portsLoop l1 acc with
    | Err e => Err e
    | Ok m => portsLoop l2 m
    end.
Proof.
  revert acc. induction l1 as [|p l1 IH]; intros acc; simpl; [done|].
  destruct (Port_Location p); [apply IH | done].
Qed.

Lemma portsLoop_other ports acc m k :
  Forall (fun q => Port_Name q ≠ k) ports ->
  portsLoop ports acc = Ok m ->
  m !! k = acc !! k.
Proof.
  intros Hall. revert acc. induction Hall as [|q ports Hq _ IH]; intros acc; simpl.
  - by intros [= ->].
  - destruct (Port_Location q); [|done].
    intros Hloop. rewrite (IH _ Hloop). by rewrite lookup_insert_ne.
Qed.

(** The last declaration of a port name decides its location. *)
Lemma portsLoop_last pre p post acc m loc :
  Forall (fun q => Port_Name q ≠ Port_Name p) post ->
  Port_Location p = Some loc ->
  portsLoop (pre ++ p :: post) acc = Ok m ->
  m !! Port_Name p = Some loc.
Proof.
  intros Hpost Hloc. rewrite portsLoop_app.
  destruct (portsLoop pre acc) as [m1|]; [|done]. simpl. rewrite Hloc.
  intros Hloop. rewrite (portsLoop_other _ _ _ _ Hpost Hloop).
  apply lookup_insert_eq.
Qed.

Lemma addrsLoop_app l1 l2 acc :
  addrsLoop (l1 ++ l2) acc =
    match addrsLoop l1 acc with
    | Err e => Err e
    | Ok m => addrsLoop l2 m
    end.
Proof.
  revert acc. induction l1 as [|a l1 IH]; intros acc; simpl; [done|].
  case_decide; [done | apply IH].
Qed.

Lemma addrsLoop_other addrs acc m k :
  Forall (fun x => Ipv4_Address x ≠ k) addrs ->
  addrsLoop addrs acc = Ok m ->
  m !! k = acc !! k.
Proof.
  intros Hall. revert acc. induction Hall as [|x addrs Hx _ IH]; intros acc; simpl.
  - by intros [= ->].
  - case_decide; [done|].
    intros Hloop. rewrite (IH _ Hloop). by rewrite lookup_insert_ne.
Qed.

Section PortsToLinuxMore.

Variable fe : DeviceEthernet -> string.

Lemma ethernetsLoop_passes physIntf eths r m res :
  ethernetsLoop fe physIntf eths r m = Ok res ->
  Forall (ethPasses physIntf) eths.
Proof.
  revert r m. induction eths as [|x eths IH]; intros r m; simpl; [by constructor|].
  case_decide; [done|].
  destruct (physIntf !! GetPortName x) as [n|] eqn:Hn; [|done].
  destruct (addrsLoop _ _) as [ipv4|] eqn:Ha; [|done].
  intros Hloop. constructor; [|by eapply IH].
  split_and!; [done | by rewrite Hn | by eapply addrsLoop_nonzero].
Qed.

(** Declared and resolved are the same once every port has a location. *)
Lemma located_resolves ports physIntf e :
  Forall (fun p => is_Some (Port_Location p)) ports ->
  portsLoop ports ∅ = Ok physIntf ->
  is_Some (physIntf !! GetPortName e) <-> GetPortName e ∈ (Port_Name <$> ports).
Proof.
  intros Hall Hloop.
  destruct (portsLoop_ok ports ∅ Hall) as (m & Hm & Hdom).
  assert (m = physIntf) as -> by congruence.
  rewrite Hdom, lookup_empty. split; [|by right].
  intros [[? [=]]|?]; done.
Qed.

(** X1. portsToLinux succeeds exactly on the configurations in which every
    port has a location and every Ethernet is bound, by a non-empty name,
    to a declared port and declares no address of prefix length zero. *)
Theorem portsToLinux_succeeds_iff ports devices :
  (exists res, portsToLinux fe ports devices = Ok res) <->
  Forall (fun p => is_Some (Port_Location p)) ports /\
  Forall (ethClean ports) (flat_map Ethernets devices).
Proof.
  unfold portsToLinux. split.
  - intros [res Hrun].
    destruct (portsLoop ports ∅) as [physIntf|] eqn:Hports; [|done].
    pose proof (portsLoop_located _ _ _ Hports) as Hloc. split; [done|].
    rewrite devicesLoop_flat in Hrun. apply ethernetsLoop_passes in Hrun.
    eapply Forall_impl; [exact Hrun|]. intros e (Hne & Hres & Hnz).
    split; [split; [done|] | done]. by apply (located_resolves ports physIntf).
  - intros [Hloc Hclean].
    destruct (portsLoop_ok ports ∅ Hloc) as (physIntf & Hports & _).
    rewrite Hports, devicesLoop_flat.
    destruct (ethernetsLoop_ok fe physIntf (flat_map Ethernets devices) ∅ ∅)
      as (r & m & ->); [|eauto].
    eapply Forall_impl; [exact Hclean|]. intros e [[Hne Hin] Hnz].
    split_and!; [done | | done]. by apply (located_resolves ports physIntf).
Qed.

(** X2. When the first thing wrong with a configuration is an Ethernet
    bound to a port name that no port declares, portsToLinux fails with an
    InvalidArgument status that names the port name. *)
Theorem portsToLinux_undeclared_port ports devices pre e post :
  Forall (fun p => is_Some (Port_Location p)) ports ->
  flat_map Ethernets devices = pre ++ e :: post ->
  Forall (ethClean ports) pre ->
  GetPortName e ≠ "" ->
  GetPortName e ∉ (Port_Name <$> ports) ->
  portsToLinux fe ports devices =
    Err (Errorf InvalidArgument
           ("invalid port name for Ethernet " +:+ GetPortName e +:+
            ", does not map to a real interface")).
Proof.
  intros Hloc Hflat Hpre Hne Hnot. unfold portsToLinux.
  destruct (portsLoop_ok ports ∅ Hloc) as (physIntf & Hports & _).
  rewrite Hports, devicesLoop_flat, Hflat, ethernetsLoop_app.
  destruct (ethernetsLoop_ok fe physIntf pre ∅ ∅) as (r & m & ->).
  { eapply Forall_impl; [exact Hpre|]. intros x [[Hx Hin] Hnz].
    split_and!; [done | | done]. by apply (located_resolves ports physIntf). }
  simpl. rewrite decide_False by done.
  destruct (physIntf !! GetPortName e) eqn:Hres; [|done].
  exfalso. apply Hnot. apply (located_resolves ports physIntf); [done | done |].
  by rewrite Hres.
Qed.

(** X3. When the first thing wrong with a configuration is an Ethernet
    whose port name is absent or empty, portsToLinux fails with an
    InvalidArgument status that carries the rendering of that Ethernet. *)
Theorem portsToLinux_missing_port_name ports devices pre e post :
  Forall (fun p => is_Some (Port_Location p)) ports ->
  flat_map Ethernets devices = pre ++ e :: post ->
  Forall (ethClean ports) pre ->
  Eth_PortName e = None \/ Eth_PortName e = Some "" ->
  portsToLinux fe ports devices =
    Err (Errorf InvalidArgument
           ("invalid ethernet port " +:+ fe e +:+ ", does not specify a name")).
Proof.
  intros Hloc Hflat Hpre Hname. unfold portsToLinux.
  destruct (portsLoop_ok ports ∅ Hloc) as (physIntf & Hports & _).
  rewrite Hports, devicesLoop_flat, Hflat, ethernetsLoop_app.
  destruct (ethernetsLoop_ok fe physIntf pre ∅ ∅) as (r & m & ->).
  { eapply Forall_impl; [exact Hpre|]. intros x [[Hx Hin] Hnz].
    split_and!; [done | | done]. by apply (located_resolves ports physIntf). }
  simpl. rewrite decide_True; [done|].
  unfold GetPortName. by destruct Hname as [-> | ->].
Qed.

(** Entries only accumulate along the Ethernet loop. *)
Lemma ethernetsLoop_mono physIntf eths r m r' m' n :
  ethernetsLoop fe physIntf eths r m = Ok (r', m') ->
  (is_Some (r !! n) -> is_Some (r' !! n)) /\
  (is_Some (m !! n) -> is_Some (m' !! n)).
Proof.
  revert r m. induction eths as [|x eths IH]; intros r m; simpl.
  - by intros [= -> ->].
  - case_decide; [done|].
    destruct (physIntf !! GetPortName x) as [k|]; [|done].
    destruct (addrsLoop _ _); [|done].
    intros Hloop. destruct (IH _ _ Hloop) as [Hr Hm].
    split; intros Hs; [apply Hr | apply Hm];
      rewrite lookup_insert_is_Some; destruct (decide (k = n)); auto.
Qed.

(** Every Ethernet of a successful loop leaves an entry for its interface
    in both maps. *)
Lemma ethernetsLoop_mem physIntf eths r m r' m' e n :
  ethernetsLoop fe physIntf eths r m = Ok (r', m') ->
  e ∈ eths ->
  physIntf !! GetPortName e = Some n ->
  is_Some (r' !! n) /\ is_Some (m' !! n).
Proof.
  revert r m. induction eths as [|x eths IH]; intros r m; simpl.
  - intros _ He. by apply elem_of_nil in He.
  - case_decide; [done|].
    destruct (physIntf !! GetPortName x) as [k|] eqn:Hk; [|done].
    destruct (addrsLoop _ _); [|done].
    intros Hloop He Hn. apply elem_of_cons in He as [->|He].
    + assert (k = n) as -> by congruence.
      destruct (ethernetsLoop_mono _ _ _ _ _ _ n Hloop) as [Hr Hm].
      split; [apply Hr | apply Hm]; by rewrite lookup_insert_eq.
    + by eapply IH.
Qed.

(** The two maps have the same keys, and every key is the interface some
    Ethernet of the loop resolves to. *)
Lemma ethernetsLoop_keys physIntf eths r m r' m' :
  ethernetsLoop fe physIntf eths r m = Ok (r', m') ->
  (forall n, is_Some (r !! n) <-> is_Some (m !! n)) ->
  (forall n, is_Some (r' !! n) <-> is_Some (m' !! n)) /\
  (forall n, is_Some (r' !! n) ->
             is_Some (r !! n) \/
             exists e, e ∈ eths /\ physIntf !! GetPortName e = Some n).
Proof.
  revert r m. induction eths as [|x eths IH]; intros r m; simpl.
  - intros [= -> ->] Hsame. split; [done | by left].
  - case_decide; [done|].
    destruct (physIntf !! GetPortName x) as [k|] eqn:Hk; [|done].
    destruct (addrsLoop _ _); [|done].
    intros Hloop Hsame. destruct (IH _ _ Hloop) as [Hsame' Hfrom].
    { intros n. rewrite !lookup_insert_is_Some. by rewrite Hsame. }
    split; [done|]. intros n Hn.
    destruct (Hfrom n Hn) as [Hins|(e & He & Hres)].
    + apply lookup_insert_is_Some in Hins as [<-|[_ Hr]]; [|by left].
      right. exists x. split; [by apply elem_of_cons; left | done].
    + right. exists e. split; [by apply elem_of_cons; right | done].
Qed.

(** Where the entries of the desired state come from. *)
Lemma ethernetsLoop_entries physIntf (all : list DeviceEthernet) eths r m r' m' :
  ethernetsLoop fe physIntf eths r m = Ok (r', m') ->
  (forall e, e ∈ eths -> e ∈ all) ->
  let good (t : gmap string linuxIntf) :=
    forall n li a p, t !! n = Some li -> IPv4 li !! a = Some p ->
      p ≠ 0 /\
      exists e x, e ∈ all /\ x ∈ Eth_Ipv4Addresses e /\
                  Ipv4_Address x = a /\ GetPrefix x = p in
  good r -> good r'.
Proof.
  intros Hloop Hsub good. revert r m Hloop Hsub.
  induction eths as [|x eths IH]; intros r m; simpl.
  - by intros [= -> ->].
  - case_decide; [done|].
    destruct (physIntf !! GetPortName x) as [k|] eqn:Hk; [|done].
    destruct (addrsLoop _ _) as [ipv4|] eqn:Ha; [|done].
    intros Hloop Hsub Hr. apply (IH _ _ Hloop).
    { intros e He. apply Hsub. by apply elem_of_cons; right. }
    intros n li a p Hn Hp.
    apply lookup_insert_Some in Hn as [[<- <-]|[_ Hn]]; [|by eapply Hr].
    simpl in Hp. destruct (addrsLoop_lookup _ _ _ Ha) as [_ Hval].
    destruct (Hval a p Hp) as [Hemp|(y & Hy & Hya & Hyp)].
    { by rewrite lookup_empty in Hemp. }
    split.
    + apply addrsLoop_nonzero in Ha. rewrite Forall_forall in Ha.
      rewrite <- Hyp. by apply Ha.
    + exists x, y. split_and!; [|done|done|done].
      apply Hsub. by apply elem_of_cons; left.
Qed.

(** X4. When a port name is declared more than once, its last declaration
    decides the interface: in a successful run, an Ethernet bound to the
    name gives the location of the last such port an entry in the desired
    state and in the name map. *)
Theorem portsToLinux_last_port_declaration
    ports devices retIntf ethMap pre p post loc e :
  portsToLinux fe ports devices = Ok (retIntf, ethMap) ->
  ports = pre ++ p :: post ->
  Forall (fun q => Port_Name q ≠ Port_Name p) post ->
  Port_Location p = Some loc ->
  e ∈ flat_map Ethernets devices ->
  GetPortName e = Port_Name p ->
  is_Some (retIntf !! loc) /\ is_Some (ethMap !! loc).
Proof.
  unfold portsToLinux. intros Hrun -> Hpost Hloc He Hname.
  destruct (portsLoop (pre ++ p :: post) ∅) as [physIntf|] eqn:Hports; [|done].
  rewrite devicesLoop_flat in Hrun.
  apply (ethernetsLoop_mem _ _ _ _ _ _ e loc Hrun He).
  rewrite Hname. by eapply portsLoop_last.
Qed.

(** X5. In what portsToLinux returns, the desired state and the name map
    have the same interfaces, and each of them is the location of a
    declared port to which some Ethernet is bound. *)
Theorem portsToLinux_interfaces ports devices retIntf ethMap n :
  portsToLinux fe ports devices = Ok (retIntf, ethMap) ->
  (is_Some (retIntf !! n) <-> is_Some (ethMap !! n)) /\
  (is_Some (retIntf !! n) ->
   exists e p, e ∈ flat_map Ethernets devices /\ p ∈ ports /\
               Port_Name p = GetPortName e /\ Port_Location p = Some n).
Proof.
  unfold portsToLinux. intros Hrun.
  destruct (portsLoop ports ∅) as [physIntf|] eqn:Hports; [|done].
  rewrite devicesLoop_flat in Hrun.
  destruct (ethernetsLoop_keys _ _ _ _ _ _ Hrun) as [Hsame Hfrom].
  { intros k. rewrite !lookup_empty. split; intros [? [=]]. }
  split; [done|]. intros Hn.
  destruct (Hfrom n Hn) as [Hemp|(e & He & Hres)].
  { rewrite lookup_empty in Hemp. by destruct Hemp. }
  destruct (portsLoop_origin _ _ _ _ _ Hports Hres) as [Hemp|(p & Hp & Hpn & Hpl)].
  { by rewrite lookup_empty in Hemp. }
  exists e, p. done.
Qed.

(** X6. Every address of the desired state portsToLinux returns is an
    address some Ethernet declares, with the prefix length declared there,
    and that prefix length is not zero. *)
Theorem portsToLinux_entries ports devices retIntf ethMap n li a p :
  portsToLinux fe ports devices = Ok (retIntf, ethMap) ->
  retIntf !! n = Some li ->
  IPv4 li !! a = Some p ->
  p ≠ 0 /\
  exists e x, e ∈ flat_map Ethernets devices /\ x ∈ Eth_Ipv4Addresses e /\
              Ipv4_Address x = a /\ GetPrefix x = p.
Proof.
  unfold portsToLinux. intros Hrun.
  destruct (portsLoop ports ∅) as [physIntf|] eqn:Hports; [|done].
  rewrite devicesLoop_flat in Hrun.
  intros Hn Hp.
  pose proof (ethernetsLoop_entries _ (flat_map Ethernets devices) _ _ _ _ _ Hrun
                (fun e He => He)) as Hgood.
  simpl in Hgood. eapply Hgood; [|done|done].
  intros k li' a' p' Hemp. by rewrite lookup_empty in Hemp.
Qed.

(** The entry of the desired state for an interface is the address map of
    the last Ethernet bound to it. *)
Lemma portsToLinux_last_entry
    ports devices physIntf retIntf ethMap pre e post n :
  portsToLinux fe ports devices = Ok (retIntf, ethMap) ->
  portsLoop ports ∅ = Ok physIntf ->
  flat_map Ethernets devices = pre ++ e :: post ->
  physIntf !! GetPortName e = Some n ->
  Forall (fun e' => physIntf !! GetPortName e' ≠ Some n) post ->
  exists ipv4,
    addrsLoop (Eth_Ipv4Addresses e) ∅ = Ok ipv4 /\
    retIntf !! n = Some {| IPv4 := ipv4 |}.
Proof.
  unfold portsToLinux. intros Hrun Hports Hflat Hres Hpost.
  rewrite Hports, devicesLoop_flat, Hflat, ethernetsLoop_app in Hrun.
  destruct (ethernetsLoop fe physIntf pre ∅ ∅) as [[r1 m1]|]; [|done].
  simpl in Hrun. case_decide; [done|]. rewrite Hres in Hrun.
  destruct (addrsLoop (Eth_Ipv4Addresses e) ∅) as [ipv4|] eqn:Haddrs; [|done].
  destruct (ethernetsLoop_other _ _ _ _ _ _ _ n Hpost Hrun) as [Hr _].
  rewrite lookup_insert_eq in Hr. eauto.
Qed.

(** X7. When an Ethernet declares the same address more than once, the
    last declaration decides the prefix length in the desired state (for
    the last Ethernet bound to the interface). *)
Theorem portsToLinux_last_prefix
    ports devices physIntf retIntf ethMap pre e post n apre a apost :
  portsToLinux fe ports devices = Ok (retIntf, ethMap) ->
  portsLoop ports ∅ = Ok physIntf ->
  flat_map Ethernets devices = pre ++ e :: post ->
  physIntf !! GetPortName e = Some n ->
  Forall (fun e' => physIntf !! GetPortName e' ≠ Some n) post ->
  Eth_Ipv4Addresses e = apre ++ a :: apost ->
  Forall (fun x => Ipv4_Address x ≠ Ipv4_Address a) apost ->
  exists li, retIntf !! n = Some li /\
             IPv4 li !! Ipv4_Address a = Some (GetPrefix a).
Proof.
  intros Hrun Hports Hflat Hres Hpost Haddrs Hapost.
  destruct (portsToLinux_last_entry _ _ _ _ _ _ _ _ _ Hrun Hports Hflat Hres Hpost)
    as (ipv4 & Hloop & Hn).
  exists {| IPv4 := ipv4 |}. split; [done|]. simpl.
  rewrite Haddrs, addrsLoop_app in Hloop.
  destruct (addrsLoop apre ∅) as [m1|]; [|done].
  simpl in Hloop. case_decide; [done|].
  rewrite (addrsLoop_other _ _ _ _ Hapost Hloop). apply lookup_insert_eq.
Qed.

End PortsToLinuxMore.

(** * Further properties of the server *)

Section ServerFrame.

Context `{Collaborators}.

(** X8. SetConfig, whatever it returns, leaves the interface cache, the
    list of handlers and the protocol handler of the server as they were,
    and a server without a hint channel still has none. *)
Theorem SetConfig_frame s req y :
  intf (SetConfig s req y).1.1 = intf s /\
  configHandlers (SetConfig s req y).1.1 = configHandlers s /\
  protocolHandler (SetConfig s req y).1.1 = protocolHandler s /\
  (hintCh s = None -> hintCh (SetConfig s req y).1.1 = None).
Proof.
  unfold SetConfig. destruct (Req_Config req) as [c|]; [|done].
  pose proof (sendHint_core s (metaHint req)) as Hs1. unfold metaHint in Hs1.
  destruct (hasUnimplemented c).
  { destruct Hs1 as (?&?&?&?&?). done. }
  destruct (handlersLoop _ _ _ _ _) as [[s2 y2] r] eqn:Hloop.
  apply handlersLoop_core in Hloop.
  destruct (sameCore_trans _ _ _ Hs1 Hloop) as (?&?&?&?&?).
  destruct r; done.
Qed.

(** X9. The stored configuration after SetConfig is the one of the request
    when the call succeeds, and the one stored before when the call fails,
    for whatever reason. *)
Theorem SetConfig_stored_configuration s req y :
  match (SetConfig s req y).2 with
  | Ok _ =>
      cfg (SetConfig s req y).1.1 = Req_Config req /\ is_Some (Req_Config req)
  | Err _ => cfg (SetConfig s req y).1.1 = cfg s
  end.
Proof.
  unfold SetConfig. destruct (Req_Config req) as [c|]; [|done].
  pose proof (sendHint_core s (metaHint req)) as Hs1. unfold metaHint in Hs1.
  destruct (hasUnimplemented c).
  { destruct Hs1 as (?&?&?). done. }
  destruct (handlersLoop _ _ _ _ _) as [[s2 y2] r] eqn:Hloop.
  apply handlersLoop_core in Hloop.
  destruct (sameCore_trans _ _ _ Hs1 Hloop) as (?&?&?).
  destruct r; simpl; [done | by split].
Qed.

(** *** The hint channel only grows *)

Lemma chanGrows_refl ch : chanGrows ch ch.
Proof. by split_and!. Qed.

Lemma chanGrows_trans c1 c2 c3 :
  chanGrows c1 c2 -> chanGrows c2 c3 -> chanGrows c1 c3.
Proof.
  intros (Hc & Hp & Hb) (Hc' & Hp' & Hb'). split_and!.
  - congruence.
  - by etrans.
  - intros Hle. apply Hb'. by apply Hb.
Qed.

Lemma trySend_grows ch h : chanGrows ch (trySend ch h).
Proof.
  unfold trySend. case_decide; [|apply chanGrows_refl].
  split_and!; simpl; [done | by apply prefix_app_r | ].
  intros _. rewrite length_app. simpl. lia.
Qed.

Lemma hintGrows_refl s : hintGrows s s.
Proof.
  unfold hintGrows. destruct (hintCh s) as [ch|] eqn:Hch; [|done].
  exists ch. split; [done | apply chanGrows_refl].
Qed.

Lemma hintGrows_trans s1 s2 s3 :
  hintGrows s1 s2 -> hintGrows s2 s3 -> hintGrows s1 s3.
Proof.
  unfold hintGrows. destruct (hintCh s1) as [c1|].
  - intros (c2 & -> & H12) (c3 & -> & H23).
    exists c3. split; [done | by eapply chanGrows_trans].
  - by intros ->.
Qed.

Lemma sendHint_grows s h : hintGrows s (sendHint s h).
Proof.
  unfold hintGrows, sendHint. destruct (hintCh s) as [ch|] eqn:Hch; simpl.
  - exists (trySend ch h). split; [done | apply trySend_grows].
  - done.
Qed.

Lemma hintLoop_grows entries s : hintGrows s (hintLoop s entries).
Proof.
  revert s. induction entries as [|[k v] entries IH]; intros s; simpl.
  - apply hintGrows_refl.
  - eapply hintGrows_trans; [apply sendHint_grows | apply IH].
Qed.

Lemma baseInterfaceConfig_grows s c y s' y' r :
  baseInterfaceConfig s c y = (s', y', r) -> hintGrows s s'.
Proof.
  unfold baseInterfaceConfig.
  destruct (portsToLinux _ _ _) as [[ifCfg ethMap]|e].
  2:{ intros [= <- _ _]. apply hintGrows_refl. }
  destruct (hintCh s) eqn:Hch.
  - destruct (do_mapRange ethMap y) as [entries y1].
    destruct (do_mapRange ifCfg y1) as [ents y2].
    destruct (intfLoop _ _ _) as [y3 [e|]]; intros [= <- _ _]; apply hintLoop_grows.
  - destruct (do_mapRange ifCfg y) as [ents y2].
    destruct (intfLoop _ _ _) as [y3 [e|]]; intros [= <- _ _]; apply hintGrows_refl.
Qed.

Lemma handlersLoop_grows fns k c s y s' y' r :
  handlersLoop k fns c s y = (s', y', r) -> hintGrows s s'.
Proof.
  revert k s y. induction fns as [|fn fns IH]; intros k s y; simpl.
  - intros [= <- _ _]. apply hintGrows_refl.
  - assert (Hcall : forall s1 y1 r1,
               callHandler fn c s (logInvoke k y) = (s1, y1, r1) -> hintGrows s s1).
    { intros s1 y1 r1. destruct fn as [|f]; simpl.
      - apply baseInterfaceConfig_grows.
      - destruct (f c (world y)). intros [= <- _ _]. apply hintGrows_refl. }
    destruct (callHandler fn c s (logInvoke k y)) as [[s1 y1] [e|]] eqn:Hc.
    + intros [= <- _ _]. by eapply Hcall.
    + intros Hrest. eapply hintGrows_trans; [by eapply Hcall | by eapply IH].
Qed.

(** X10. SetConfig only ever appends to the hint channel: after the call
    the channel has the capacity it had, the hints it held are still at the
    front in their order, and it holds no more hints than its capacity
    allows. *)
Theorem SetConfig_hint_channel_grows s req y ch :
  hintCh s = Some ch ->
  exists ch', hintCh (SetConfig s req y).1.1 = Some ch' /\ chanGrows ch ch'.
Proof.
  intros Hch.
  assert (Hg : hintGrows s (SetConfig s req y).1.1).
  { unfold SetConfig. destruct (Req_Config req) as [c|]; [|apply hintGrows_refl].
    pose proof (sendHint_grows s (metaHint req)) as Hs1. unfold metaHint in Hs1.
    destruct (hasUnimplemented c); [done|].
    destruct (sendHint_core s (metaHint req)) as (_ & _ & Hh & _).
    unfold metaHint in Hh.
    destruct (handlersLoop _ _ _ _ _) as [[s2 y2] r] eqn:Hloop.
    apply handlersLoop_grows in Hloop.
    pose proof (hintGrows_trans _ _ _ Hs1 Hloop) as Hg.
    destruct r; simpl; [done|]. unfold hintGrows in *. by destruct (hintCh s). }
  unfold hintGrows in Hg. by rewrite Hch in Hg.
Qed.

End ServerFrame.

Section HintsAndOutcome.

Context `{Collaborators}.

(** *** A full hint channel *)

Lemma sendHint_full s ch h :
  hintCh s = Some ch -> (cap ch <= length (buf ch))%nat -> sendHint s h = s.
Proof.
  intros Hch Hfull. unfold sendHint, trySend. rewrite Hch.
  rewrite decide_False by lia. destruct s; simpl in *. by rewrite Hch.
Qed.

Lemma hintLoop_full s ch entries :
  hintCh s = Some ch -> (cap ch <= length (buf ch))%nat -> hintLoop s entries = s.
Proof.
  intros Hch Hfull. induction entries as [|[k v] entries IH]; simpl; [done|].
  by rewrite (sendHint_full _ _ _ Hch Hfull).
Qed.

Lemma handlersLoop_full fns k c s ch y s' y' r :
  hintCh s = Some ch -> (cap ch <= length (buf ch))%nat ->
  handlersLoop k fns c s y = (s', y', r) -> s' = s.
Proof.
  intros Hch Hfull. revert k y. induction fns as [|fn fns IH]; intros k y; simpl.
  - by intros [= <- _ _].
  - assert (Hcall : forall s1 y1 r1,
               callHandler fn c s (logInvoke k y) = (s1, y1, r1) -> s1 = s).
    { intros s1 y1 r1. destruct fn as [|f]; simpl.
      - unfold baseInterfaceConfig.
        destruct (portsToLinux _ _ _) as [[ifCfg ethMap]|e]; [|by intros [= <- _ _]].
        rewrite Hch. destruct (do_mapRange ethMap _) as [entries y0].
        rewrite (hintLoop_full _ _ _ Hch Hfull).
        destruct (do_mapRange ifCfg y0) as [ents y2].
        by destruct (intfLoop _ _ _) as [y3 [e|]]; intros [= <- _ _].
      - destruct (f c (world y)). by intros [= <- _ _]. }
    destruct (callHandler fn c s (logInvoke k y)) as [[s1 y1] [e|]] eqn:Hc.
    + intros [= <- _ _]. by apply (Hcall _ _ _ eq_refl).
    + rewrite (Hcall _ _ _ eq_refl). apply IH.
Qed.

(** X11. Hints are dropped, not queued, when the hint channel is full:
    SetConfig leaves a full channel exactly as it was. *)
Theorem SetConfig_full_hint_channel s req y ch :
  hintCh s = Some ch ->
  (cap ch <= length (buf ch))%nat ->
  hintCh (SetConfig s req y).1.1 = Some ch.
Proof.
  intros Hch Hfull. unfold SetConfig.
  destruct (Req_Config req) as [c|]; [|done].
  pose proof (sendHint_full s ch (metaHint req) Hch Hfull) as Hs1.
  unfold metaHint in Hs1. rewrite Hs1.
  destruct (hasUnimplemented c); [done|].
  destruct (handlersLoop _ _ _ _ _) as [[s2 y2] r] eqn:Hloop.
  apply (handlersLoop_full _ _ _ _ _ _ _ _ _ Hch Hfull) in Hloop as ->.
  by destruct r.
Qed.

(** *** The outcome does not depend on the hints *)

Lemma agree_refl s : agree s s.
Proof. by split_and!. Qed.

Lemma addrLoop_agree s1 s2 name addrs y :
  intf s1 = intf s2 -> addrLoop s1 name addrs y = addrLoop s2 name addrs y.
Proof.
  intros Hi. revert y. induction addrs as [|[a m] addrs IH]; intros y; simpl; [done|].
  destruct (net_ParseCIDR _); [|done].
  unfold intfHasAddr. rewrite Hi.
  destruct (match intf s2 !! name with Some v => _ | None => _ end); [apply IH|].
  destruct (do_AddIP _ _ _) as [y1 [e|]]; [done | apply IH].
Qed.

Lemma intfLoop_agree s1 s2 entries y :
  intf s1 = intf s2 -> intfLoop s1 entries y = intfLoop s2 entries y.
Proof.
  intros Hi. revert y. induction entries as [|[name c] entries IH]; intros y; simpl; [done|].
  destruct (negb _); [done|].
  destruct (do_mapRange (IPv4 c) _) as [addrs y1].
  rewrite (addrLoop_agree s1 s2 _ _ _ Hi).
  destruct (addrLoop s2 name addrs y1) as [y2 [e|]]; [done | apply IH].
Qed.

Lemma sendHint_agree s1 s2 h : agree s1 s2 -> agree (sendHint s1 h) (sendHint s2 h).
Proof.
  intros (Hi & Hc & Hh & Hp & Hch). unfold sendHint.
  destruct (hintCh s1) eqn:H1, (hintCh s2) eqn:H2.
  - split_and!; simpl; try done; split; intros _; eauto.
  - destruct Hch as [Hch _]. by destruct Hch.
  - destruct Hch as [_ Hch]. by destruct Hch.
  - split_and!; try done. by rewrite H1, H2.
Qed.

Lemma hintLoop_agree entries s1 s2 :
  agree s1 s2 -> agree (hintLoop s1 entries) (hintLoop s2 entries).
Proof.
  revert s1 s2. induction entries as [|[k v] entries IH]; intros s1 s2 Ha; simpl.
  - done.
  - apply IH. by apply sendHint_agree.
Qed.

Lemma baseInterfaceConfig_agree s1 s2 c y :
  agree s1 s2 ->
  agree (baseInterfaceConfig s1 c y).1.1 (baseInterfaceConfig s2 c y).1.1 /\
  (baseInterfaceConfig s1 c y).1.2 = (baseInterfaceConfig s2 c y).1.2 /\
  (baseInterfaceConfig s1 c y).2 = (baseInterfaceConfig s2 c y).2.
Proof.
  intros Ha. unfold baseInterfaceConfig.
  destruct (portsToLinux _ _ _) as [[ifCfg ethMap]|e]; [|done].
  pose proof Ha as (Hi & Hc & Hh & Hp & Hch).
  destruct (hintCh s1) eqn:H1, (hintCh s2) eqn:H2.
  - destruct (do_mapRange ethMap y) as [entries y1].
    destruct (do_mapRange ifCfg y1) as [ents y2].
    pose proof (hintLoop_agree entries s1 s2 Ha) as Hl.
    pose proof Hl as (Hi' & _).
    rewrite (intfLoop_agree _ _ ents y2 Hi').
    by destruct (intfLoop _ ents y2) as [y3 [e|]].
  - destruct Hch as [Hch _]. by destruct Hch.
  - destruct Hch as [_ Hch]. by destruct Hch.
  - destruct (do_mapRange ifCfg y) as [ents y2].
    rewrite (intfLoop_agree _ _ ents y2 Hi).
    by destruct (intfLoop _ ents y2) as [y3 [e|]].
Qed.

Lemma handlersLoop_agree fns k c s1 s2 y :
  agree s1 s2 ->
  agree (handlersLoop k fns c s1 y).1.1 (handlersLoop k fns c s2 y).1.1 /\
  (handlersLoop k fns c s1 y).1.2 = (handlersLoop k fns c s2 y).1.2 /\
  (handlersLoop k fns c s1 y).2 = (handlersLoop k fns c s2 y).2.
Proof.
  revert k s1 s2 y. induction fns as [|fn fns IH]; intros k s1 s2 y Ha; simpl; [done|].
  assert (Hcall :
    agree (callHandler fn c s1 (logInvoke k y)).1.1
          (callHandler fn c s2 (logInvoke k y)).1.1 /\
    (callHandler fn c s1 (logInvoke k y)).1.2 =
      (callHandler fn c s2 (logInvoke k y)).1.2 /\
    (callHandler fn c s1 (logInvoke k y)).2 =
      (callHandler fn c s2 (logInvoke k y)).2).
  { destruct fn as [|f]; simpl.
    - by apply baseInterfaceConfig_agree.
    - by destruct (f c (world y)). }
  destruct (callHandler fn c s1 (logInvoke k y)) as [[a1 y1] r1].
  destruct (callHandler fn c s2 (logInvoke k y)) as [[a2 y2] r2].
  simpl in Hcall. destruct Hcall as (Ha' & -> & ->).
  destruct r2; [done|]. by apply IH.
Qed.

(** X12. Hints are best effort and never change what SetConfig does: two
    servers that differ only in the contents of their hint channels (full,
    empty, or anything between) return the same result for a request and
    leave the same host and the same trace of calls. *)
Theorem SetConfig_outcome_independent_of_hints s1 s2 req y :
  agree s1 s2 ->
  (SetConfig s1 req y).1.2 = (SetConfig s2 req y).1.2 /\
  (SetConfig s1 req y).2 = (SetConfig s2 req y).2 /\
  agree (SetConfig s1 req y).1.1 (SetConfig s2 req y).1.1.
Proof.
  intros Ha. unfold SetConfig. destruct (Req_Config req) as [c|]; [|done].
  pose proof (sendHint_agree s1 s2 (metaHint req) Ha) as Ha1.
  unfold metaHint in Ha1.
  destruct (hasUnimplemented c); [done|].
  destruct Ha1 as (Hi & Hc & Hh & Hp & Hch). rewrite Hh.
  pose proof (handlersLoop_agree
                (configHandlers (sendHint s2 (metaHint req))) 0 c
                (sendHint s1 (metaHint req)) (sendHint s2 (metaHint req)) y) as Hl.
  unfold metaHint in Hl.
  destruct Hl as (Ha2 & Hy & Hr); [by split_and!|].
  destruct (handlersLoop _ _ _ (sendHint s1 _) y) as [[a1 y1] r1].
  destruct (handlersLoop _ _ _ (sendHint s2 _) y) as [[a2 y2] r2].
  simpl in *. subst. destruct r2; [done|].
  destruct Ha2 as (?&?&?&?&?). by split_and!.
Qed.

End HintsAndOutcome.

Section HostCalls.

Context `{Collaborators}.

Lemma intfHasAddr_intf s1 s2 name a :
  intf s1 = intf s2 -> intfHasAddr s1 name a = intfHasAddr s2 name a.
Proof. intros Hi. unfold intfHasAddr. by rewrite Hi. Qed.

(** The calls of one address loop: AddIP calls for addresses of the loop
    that the cache does not hold. *)
Lemma addrLoop_calls s ifCfg name li addrs y y' r :
  ifCfg !! name = Some li ->
  (forall a m, (a, m) ∈ addrs -> IPv4 li !! a = Some m) ->
  addrLoop s name addrs y = (y', r) ->
  exists t, trace y' = trace y ++ t /\ Forall (fromDesired s ifCfg) t.
Proof.
  intros Hname. revert y. induction addrs as [|[a m] addrs IH]; intros y Hin; simpl.
  - intros [= <- _]. exists []. by rewrite app_nil_r.
  - destruct (net_ParseCIDR (Sprintf_cidr a m)) as [ipNet|err] eqn:Hparse.
    2:{ intros [= <- _]. exists []. by rewrite app_nil_r. }
    assert (Hrest : forall a' m', (a', m') ∈ addrs -> IPv4 li !! a' = Some m').
    { intros a' m' Hin'. apply Hin. by apply elem_of_cons; right. }
    destruct (intfHasAddr s name a) eqn:Hhas; [by apply IH|].
    assert (Hev : fromDesired s ifCfg (CallAddIP name ipNet)).
    { exists name, ipNet, li, a, m. split_and!; try done.
      apply Hin. by apply elem_of_cons; left. }
    unfold do_AddIP. destruct (intf_AddIP name ipNet (world y)) as [w [err|]].
    + intros [= <- _]. simpl. exists [CallAddIP name ipNet].
      split; [done | by constructor].
    + intros Hloop. destruct (IH _ Hrest Hloop) as (t & Ht & Hall). simpl in Ht.
      exists (CallAddIP name ipNet :: t). split; [|by constructor].
      rewrite Ht. by rewrite <- app_assoc.
Qed.

Lemma intfLoop_calls s ifCfg entries y y' r :
  (forall name li, (name, li) ∈ entries -> ifCfg !! name = Some li) ->
  intfLoop s entries y = (y', r) ->
  exists t, trace y' = trace y ++ t /\ Forall (expected s ifCfg) t.
Proof.
  revert y. induction entries as [|[name li] entries IH]; intros y Hin; simpl.
  - intros [= <- _]. exists []. by rewrite app_nil_r.
  - assert (Hname : ifCfg !! name = Some li) by (by apply Hin, elem_of_cons; left).
    assert (Hprobe : expected s ifCfg (CallValidInterface name)).
    { left. exists name. split; [done | by rewrite Hname]. }
    destruct (intf_ValidInterface name (world y)); simpl.
    2:{ intros [= <- _]. simpl. exists [CallValidInterface name].
        split; [done | by constructor]. }
    unfold do_mapRange. simpl.
    pose proof (mapRange_perm _ (IPv4 li) (world y)) as Hperm.
    destruct (mapRange (IPv4 li) (world y)) as [addrs w]. simpl in Hperm.
    destruct (addrLoop _ _ _ _) as [y2 [err|]] eqn:Hloop;
      eapply (addrLoop_calls s ifCfg name li) in Hloop as (t1 & Ht1 & Hall1);
      try done;
      try (intros a m Ham; apply elem_of_map_to_list; by rewrite <- Hperm).
    + intros [= <- _]. simpl in Ht1. exists (CallValidInterface name :: t1).
      split; [by rewrite Ht1, <- app_assoc|].
      constructor; [done|]. eapply Forall_impl; [exact Hall1 | by right].
    + intros Hrest. destruct (IH y2) as (t2 & Ht2 & Hall2); [|done|].
      { intros n l Hnl. apply Hin. by apply elem_of_cons; right. }
      simpl in Ht1. exists (CallValidInterface name :: t1 ++ t2). split.
      * rewrite Ht2, Ht1. by rewrite <- !app_assoc.
      * constructor; [done|]. apply Forall_app. split; [|done].
        eapply Forall_impl; [exact Hall1 | by right].
Qed.

(** The calls of a run of the base handler. *)
Lemma baseInterfaceConfig_calls s c y s' y' r :
  baseInterfaceConfig s c y = (s', y', r) ->
  exists t,
    trace y' = trace y ++ t ++ arpTail r /\
    forall ifCfg ethMap,
      portsToLinux fmt_eth (Ports c) (Devices c) = Ok (ifCfg, ethMap) ->
      Forall (expected s ifCfg) t.
Proof.
  unfold baseInterfaceConfig.
  destruct (portsToLinux _ _ _) as [[ifCfg ethMap]|e].
  2:{ intros [= _ <- <-]. exists []. simpl. by rewrite app_nil_r. }
  assert (Hgo : forall s1 y1, intf s1 = intf s -> trace y1 = trace y ->
    (let '(entries, y2) := do_mapRange ifCfg y1 in
     match intfLoop s1 entries y2 with
     | (y3, Some err) => (s1, y3, Some err)
     | (y3, None) => (s1, do_SendARP false y3, None)
     end) = (s', y', r) ->
    exists t, trace y' = trace y ++ t ++ arpTail r /\
              Forall (expected s ifCfg) t).
  { intros s1 y1 Hi Ht. unfold do_mapRange.
    pose proof (mapRange_perm _ ifCfg (world y1)) as Hperm.
    destruct (mapRange ifCfg (world y1)) as [entries w]. simpl in Hperm.
    destruct (intfLoop _ _ _) as [y3 r3] eqn:Hloop.
    apply (intfLoop_calls s1 ifCfg) in Hloop as (t & Htr & Hall).
    2:{ intros name li Hnl. apply elem_of_map_to_list. by rewrite <- Hperm. }
    simpl in Htr. intros Heq.
    assert (Hy : trace y' = trace y ++ t ++ arpTail r).
    { destruct r3; injection Heq as _ <- <-; simpl; rewrite Htr, Ht.
      - by rewrite app_nil_r.
      - by rewrite <- app_assoc. }
    exists t. split; [done|].
    eapply Forall_impl; [exact Hall|].
    intros ev [Hprobe|(name & n & li & a & m & ? & ? & ? & ? & Hhas)]; [by left|].
    right. exists name, n, li, a, m. split_and!; try done.
    by rewrite <- (intfHasAddr_intf s1 s _ _ Hi). }
  intros Hrun.
  assert (Hex : exists t, trace y' = trace y ++ t ++ arpTail r /\
                          Forall (expected s ifCfg) t).
  { revert Hrun. destruct (hintCh s).
    - unfold do_mapRange at 1. destruct (mapRange ethMap (world y)) as [ents w].
      apply Hgo; [|done]. by destruct (hintLoop_core ents s) as [-> _].
    - by apply Hgo. }
  destruct Hex as (t & Ht & Hall). exists t. split; [done|].
  by intros ? ? [= <- <-].
Qed.

(** X13. The calls a run of the base handler makes into the
    host-networking package are ValidInterface and AddIP calls, followed by
    one SendARP(false) when the handler returns nil, and by nothing when it
    returns an error: address resolution is announced exactly when every
    address was applied. *)
Theorem baseInterfaceConfig_call_sequence s c y s' y' r :
  baseInterfaceConfig s c y = (s', y', r) ->
  exists t, trace y' = trace y ++ t ++ arpTail r /\ Forall isIntfLoopCall t.
Proof.
  intros Hrun.
  destruct (baseInterfaceConfig_calls _ _ _ _ _ _ Hrun) as (t & Ht & Hall).
  destruct (portsToLinux fmt_eth (Ports c) (Devices c)) as [[ifCfg ethMap]|e] eqn:Hp.
  - exists t. split; [done|].
    eapply Forall_impl; [exact (Hall _ _ eq_refl)|].
    by intros ev [(name & -> & _)|(name & n & ? & ? & ? & -> & _)].
  - unfold baseInterfaceConfig in Hrun. rewrite Hp in Hrun.
    injection Hrun as <- <- <-. exists []. simpl. by rewrite app_nil_r.
Qed.

(** X14. The base handler applies nothing but what the configuration
    declares: each AddIP call it makes is for an interface and an address
    of the desired state that the interface cache does not hold, and passes
    the network ParseCIDR returns for that address and its prefix
    length. *)
Theorem baseInterfaceConfig_applies_only_desired s c y s' y' r ifCfg ethMap :
  portsToLinux fmt_eth (Ports c) (Devices c) = Ok (ifCfg, ethMap) ->
  baseInterfaceConfig s c y = (s', y', r) ->
  exists t,
    trace y' = trace y ++ t /\
    forall name n, CallAddIP name n ∈ t ->
      exists li a m,
        ifCfg !! name = Some li /\ IPv4 li !! a = Some m /\
        net_ParseCIDR (Sprintf_cidr a m) = inl n /\
        intfHasAddr s name a = false.
Proof.
  intros Hp Hrun.
  destruct (baseInterfaceConfig_calls _ _ _ _ _ _ Hrun) as (t & Ht & Hall).
  specialize (Hall _ _ Hp). exists (t ++ arpTail r). split; [done|].
  intros name n Hin. apply elem_of_app in Hin as [Hin|Hin].
  - rewrite Forall_forall in Hall.
    destruct (Hall _ Hin) as
      [(name' & [=] & _)|(name' & n' & li & a & m & [= <- <-] & ?)].
    by exists li, a, m.
  - destruct r; simpl in Hin; [by apply elem_of_nil in Hin|].
    apply elem_of_cons in Hin as [[=]|Hin]. by apply elem_of_nil in Hin.
Qed.

(** X15. The skip works once the cache is filled: on a server whose
    interface cache has been set, by cacheInterfaces, to the desired state
    of a configuration, the base handler makes no AddIP call for that
    configuration. *)
Theorem baseInterfaceConfig_skips_cached s c y s' y' r ifCfg ethMap :
  portsToLinux fmt_eth (Ports c) (Devices c) = Ok (ifCfg, ethMap) ->
  baseInterfaceConfig (cacheInterfaces s ifCfg) c y = (s', y', r) ->
  addIPCalls (trace y') = addIPCalls (trace y).
Proof.
  intros Hp Hrun.
  destruct (baseInterfaceConfig_calls _ _ _ _ _ _ Hrun) as (t & Ht & Hall).
  specialize (Hall _ _ Hp).
  assert (Hnone : addIPCalls t = []).
  { clear Ht. induction Hall as [|ev t Hev _ IH]; [done|].
    destruct Hev as [(name & -> & _)|(name & n & li & a & m & _ & Hn & Ha & _ & Hhas)];
      [done|].
    exfalso. unfold intfHasAddr in Hhas. simpl in Hhas. rewrite Hn in Hhas.
    rewrite bool_decide_eq_false in Hhas. apply Hhas. by rewrite Ha. }
  rewrite Ht, !addIPCalls_app, Hnone. simpl.
  destruct r; simpl; by rewrite app_nil_r.
Qed.

(** *** The codes of the errors *)

Lemma addrLoop_code s name addrs y y' e :
  addrLoop s name addrs y = (y', Some e) ->
  code e = InvalidArgument \/ code e = Internal.
Proof.
  revert y. induction addrs as [|[a m] addrs IH]; intros y; simpl; [done|].
  destruct (net_ParseCIDR _); [|intros [= _ <-]; by left].
  destruct (intfHasAddr s name a); [apply IH|].
  destruct (do_AddIP _ _ _) as [y1 [err|]]; [intros [= _ <-]; by right | apply IH].
Qed.

Lemma intfLoop_code s entries y y' e :
  intfLoop s entries y = (y', Some e) ->
  code e = InvalidArgument \/ code e = Internal.
Proof.
  revert y. induction entries as [|[name li] entries IH]; intros y; simpl; [done|].
  destruct (negb _); [intros [= _ <-]; by right|].
  destruct (do_mapRange (IPv4 li) _) as [addrs y1].
  destruct (addrLoop _ _ _ _) as [y2 [err|]] eqn:Hloop; [|apply IH].
  intros [= _ <-]. by eapply addrLoop_code.
Qed.

Lemma baseInterfaceConfig_code s c y s' y' e :
  baseInterfaceConfig s c y = (s', y', Some e) ->
  code e = InvalidArgument \/ code e = Internal.
Proof.
  unfold baseInterfaceConfig.
  destruct (portsToLinux _ _ _) as [[ifCfg ethMap]|err] eqn:Hp.
  2:{ intros [= _ _ <-]. left. by eapply portsToLinux_code. }
  destruct (match hintCh s with Some _ => _ | None => _ end) as [s1 y1].
  destruct (do_mapRange ifCfg y1) as [ents y2].
  destruct (intfLoop _ _ _) as [y3 [err|]] eqn:Hloop; [|done].
  intros [= _ _ <-]. by eapply intfLoop_code.
Qed.

(** X16. On a server with no handler but its own, every error of
    SetConfig has one of three codes: InvalidArgument, Unimplemented or
    Internal. *)
Theorem SetConfig_error_codes s req y s' y' e :
  configHandlers s = [baseHandler] ->
  SetConfig s req y = (s', y', Err e) ->
  code e = InvalidArgument \/ code e = Unimplemented \/ code e = Internal.
Proof.
  intros Hh. unfold SetConfig.
  destruct (Req_Config req) as [c|]; [|intros [= _ _ <-]; by left].
  destruct (hasUnimplemented c); [intros [= _ _ <-]; by right; left|].
  destruct (sendHint_core s (metaHint req)) as (_ & _ & Hh' & _).
  unfold metaHint in Hh'. rewrite Hh', Hh. simpl.
  destruct (baseInterfaceConfig _ _ _) as [[s1 y1] [err|]] eqn:Hbase; [|done].
  intros [= _ _ <-]. apply baseInterfaceConfig_code in Hbase. tauto.
Qed.

End HostCalls.

Section Composition.

Context `{Collaborators}.

(** *** The interface_map hints *)

Lemma hintLoop_room entries s ch :
  hintCh s = Some ch ->
  (length (buf ch) + length entries <= cap ch)%nat ->
  hintCh (hintLoop s entries) =
    Some {| buf := buf ch ++ (interfaceMapHint <$> entries); cap := cap ch |}.
Proof.
  revert s ch. induction entries as [|[k v] entries IH]; intros s ch Hch Hroom; simpl.
  - rewrite app_nil_r, Hch. by destruct ch.
  - simpl in Hroom.
    rewrite (IH _ {| buf := buf ch ++ [interfaceMapHint (k, v)]; cap := cap ch |}).
    + simpl. by rewrite <- app_assoc.
    + unfold sendHint, trySend. rewrite Hch. simpl. rewrite decide_True by lia. done.
    + simpl. rewrite length_app. simpl. lia.
Qed.

Lemma handlersLoop_ext_server c fs k s y s' y' r :
  handlersLoop k (extHandler <$> fs) c s y = (s', y', r) -> s' = s.
Proof.
  revert k y. induction fs as [|f fs IH]; intros k y; simpl.
  - by intros [= <- _ _].
  - destruct (f c (world y)) as [w [err|]]; [by intros [= <- _ _] | apply IH].
Qed.

(** X17. Observers learn the name mapping whether or not the addresses can
    be applied: when the hint channel has room, SetConfig with a
    configuration without unsupported fields that portsToLinux accepts
    leaves in the channel, after the hints it held, the meta hint and then
    one interface_map hint for every entry of the name map, also when the
    call fails at a later step. *)
Theorem SetConfig_sends_interface_map s req c y ch ifCfg ethMap :
  reachable s ->
  hintCh s = Some ch ->
  Req_Config req = Some c ->
  hasUnimplemented c = false ->
  portsToLinux fmt_eth (Ports c) (Devices c) = Ok (ifCfg, ethMap) ->
  (length (buf ch) + 1 + size ethMap <= cap ch)%nat ->
  exists hs,
    hs ≡ₚ (interfaceMapHint <$> map_to_list ethMap) /\
    hintCh (SetConfig s req y).1.1 =
      Some {| buf := buf ch ++ metaHint req :: hs; cap := cap ch |}.
Proof.
  intros Hs Hch Hreq Hun Hp Hroom.
  destruct (reachable_handlers s Hs) as [fs Hfs].
  rewrite (SetConfig_accepts _ _ _ _ Hreq Hun), Hfs. simpl.
  unfold baseInterfaceConfig. rewrite Hp.
  assert (Hch1 : hintCh (sendHint s (metaHint req)) =
                 Some {| buf := buf ch ++ [metaHint req]; cap := cap ch |}).
  { unfold sendHint, trySend. rewrite Hch. simpl. rewrite decide_True by lia. done. }
  rewrite Hch1. unfold do_mapRange at 1. simpl.
  pose proof (mapRange_perm _ ethMap (world y)) as Hperm.
  destruct (mapRange ethMap (world y)) as [entries w]. simpl in Hperm.
  exists (interfaceMapHint <$> entries). split; [by rewrite Hperm|].
  assert (Hch2 : hintCh (hintLoop (sendHint s (metaHint req)) entries) =
                 Some {| buf := buf ch ++ metaHint req :: (interfaceMapHint <$> entries);
                         cap := cap ch |}).
  { rewrite (hintLoop_room _ _ _ Hch1); simpl.
    - by rewrite <- app_assoc.
    - rewrite length_app, (Permutation_length Hperm), length_map_to_list. simpl. lia. }
  destruct (do_mapRange ifCfg _) as [ents y2].
  destruct (intfLoop _ ents y2) as [y3 [err|]]; simpl; [done|].
  destruct (handlersLoop _ _ _ _ _) as [[s2 y4] r] eqn:Hrest.
  apply handlersLoop_ext_server in Hrest as ->.
  by destruct r.
Qed.

(** *** SetProtocolState after SetConfig *)

(** What SetConfig leaves of a server, in one statement. *)
Lemma SetConfig_fields s req y :
  protocolHandler (SetConfig s req y).1.1 = protocolHandler s /\
  cfg (SetConfig s req y).1.1 =
    match (SetConfig s req y).2 with
    | Ok _ => Req_Config req
    | Err _ => cfg s
    end.
Proof.
  unfold SetConfig. destruct (Req_Config req) as [c|]; [|done].
  pose proof (sendHint_core s (metaHint req)) as Hs1. unfold metaHint in Hs1.
  destruct (hasUnimplemented c).
  { destruct Hs1 as (?&?&?&?&?). done. }
  destruct (handlersLoop _ _ _ _ _) as [[s2 y2] r] eqn:Hloop.
  apply handlersLoop_core in Hloop.
  destruct (sameCore_trans _ _ _ Hs1 Hloop) as (?&?&?&?&?).
  by destruct r.
Qed.

(** X18. SetProtocolState hands the protocol handler the configuration of
    the last successful SetConfig: called after a SetConfig, the handler
    registered before receives the configuration of that request when the
    SetConfig succeeded and the one stored before it when it failed. The
    handler's error comes back as it is, and the server is not changed. *)
Theorem SetProtocolState_after_SetConfig s req y fn preq :
  protocolHandler s = Some fn ->
  SetProtocolState (SetConfig s req y).1.1 preq (SetConfig s req y).1.2 =
    Returned
      ((SetConfig s req y).1.1,
       {| world :=
            (fn (match (SetConfig s req y).2 with
                 | Ok _ => Req_Config req
                 | Err _ => cfg s
                 end) (GetState preq) (world (SetConfig s req y).1.2)).1;
          trace := trace (SetConfig s req y).1.2 |},
       match (fn (match (SetConfig s req y).2 with
                  | Ok _ => Req_Config req
                  | Err _ => cfg s
                  end) (GetState preq) (world (SetConfig s req y).1.2)).2 with
       | Some err => Err err
       | None =>
           Ok {| SetProtocolState_StatusCode_200 := Some {| Warnings := [] |} |}
       end).
Proof.
  intros Hfn. destruct (SetConfig_fields s req y) as [Hp Hc].
  unfold SetProtocolState. rewrite Hp, Hfn, Hc.
  destruct (fn _ _ _) as [w [err|]]; done.
Qed.

End Composition.

Section Liveness.

Context `{Collaborators}.

Variable P : World -> Prop.
Hypothesis mapRange_keeps :
  forall (A : Type) (m : gmap string A) w, P w -> P (mapRange m w).2.

Lemma addrLoop_succeeds s name addrs y :
  P (world y) ->
  (forall n w, P w -> P (intf_AddIP name n w).1 /\ (intf_AddIP name n w).2 = None) ->
  (forall a m, (a, m) ∈ addrs -> exists n, net_ParseCIDR (Sprintf_cidr a m) = inl n) ->
  exists y', addrLoop s name addrs y = (y', None) /\ P (world y').
Proof.
  intros Hy Hadd. revert y Hy.
  induction addrs as [|[a m] addrs IH]; intros y Hy Hparse; simpl.
  - eauto.
  - destruct (Hparse a m) as [n ->]; [by apply elem_of_cons; left|].
    assert (Hrest : forall a' m', (a', m') ∈ addrs ->
                                  exists n', net_ParseCIDR (Sprintf_cidr a' m') = inl n').
    { intros a' m' Hin. apply Hparse. by apply elem_of_cons; right. }
    destruct (intfHasAddr s name a); [by apply IH|].
    unfold do_AddIP. destruct (Hadd n (world y) Hy) as [HP Hnone].
    destruct (intf_AddIP name n (world y)) as [w r]. simpl in *. subst r.
    by apply IH.
Qed.

Lemma intfLoop_succeeds s (ifCfg : gmap string linuxIntf) entries y :
  P (world y) ->
  (forall name li, (name, li) ∈ entries -> ifCfg !! name = Some li) ->
  (forall name w, P w -> is_Some (ifCfg !! name) ->
                  intf_ValidInterface name w = true) ->
  (forall name n w, P w -> is_Some (ifCfg !! name) ->
                    P (intf_AddIP name n w).1 /\ (intf_AddIP name n w).2 = None) ->
  (forall name li a m, ifCfg !! name = Some li -> IPv4 li !! a = Some m ->
                       exists n, net_ParseCIDR (Sprintf_cidr a m) = inl n) ->
  exists y', intfLoop s entries y = (y', None) /\ P (world y').
Proof.
  intros Hy Hin Hvalid Hadd Hparse. revert y Hy.
  induction entries as [|[name li] entries IH]; intros y Hy; simpl.
  - eauto.
  - assert (Hname : ifCfg !! name = Some li) by (by apply Hin, elem_of_cons; left).
    rewrite Hvalid; [|done | by rewrite Hname]. simpl.
    unfold do_mapRange. simpl.
    pose proof (mapRange_perm _ (IPv4 li) (world y)) as Hperm.
    pose proof (mapRange_keeps _ (IPv4 li) (world y) Hy) as Hy1.
    destruct (mapRange (IPv4 li) (world y)) as [addrs w]. simpl in Hperm, Hy1.
    destruct (addrLoop_succeeds s name addrs
                {| world := w; trace := trace y ++ [CallValidInterface name] |})
      as (y2 & -> & Hy2); [done | | |].
    + intros n w0 Hw0. apply Hadd; [done | by rewrite Hname].
    + intros a m Ham. apply (Hparse name li); [done|].
      apply elem_of_map_to_list. by rewrite <- Hperm.
    + apply IH; [|done]. intros n l Hnl. apply Hin. by apply elem_of_cons; right.
Qed.

(** X19. SetConfig succeeds when nothing stands in its way. On a server
    with no handler but its own, for a configuration without unsupported
    fields that portsToLinux accepts, on a host that keeps every interface
    of the desired state configurable and accepts every address on them,
    and when every address of the desired state parses with its prefix
    length, SetConfig returns its acknowledgement and stores the
    configuration. [P] is what the host keeps true. *)
Theorem SetConfig_succeeds s req c y ifCfg ethMap :
  configHandlers s = [baseHandler] ->
  Req_Config req = Some c ->
  hasUnimplemented c = false ->
  portsToLinux fmt_eth (Ports c) (Devices c) = Ok (ifCfg, ethMap) ->
  P (world y) ->
  (forall name w, P w -> is_Some (ifCfg !! name) ->
                  intf_ValidInterface name w = true) ->
  (forall name n w, P w -> is_Some (ifCfg !! name) ->
                    P (intf_AddIP name n w).1 /\ (intf_AddIP name n w).2 = None) ->
  (forall name li a m, ifCfg !! name = Some li -> IPv4 li !! a = Some m ->
                       exists n, net_ParseCIDR (Sprintf_cidr a m) = inl n) ->
  exists s' y' resp,
    SetConfig s req y = (s', y', Ok resp) /\ cfg s' = Some c.
Proof.
  intros Hh Hreq Hun Hp Hy Hvalid Hadd Hparse.
  rewrite (SetConfig_accepts _ _ _ _ Hreq Hun), Hh. simpl.
  unfold baseInterfaceConfig. rewrite Hp.
  assert (Hgo : forall s1 y1, P (world y1) ->
    exists y3, (let '(entries, y2) := do_mapRange ifCfg y1 in
                match intfLoop s1 entries y2 with
                | (y3, Some err) => (s1, y3, Some err)
                | (y3, None) => (s1, do_SendARP false y3, None)
                end) = (s1, y3, None)).
  { intros s1 y1 Hy1. unfold do_mapRange.
    pose proof (mapRange_perm _ ifCfg (world y1)) as Hperm.
    pose proof (mapRange_keeps _ ifCfg (world y1) Hy1) as Hy2.
    destruct (mapRange ifCfg (world y1)) as [entries w]. simpl in Hperm, Hy2.
    destruct (intfLoop_succeeds s1 ifCfg entries {| world := w; trace := trace y1 |})
      as (y3 & -> & _); try done; [|eauto].
    intros name li Hnl. apply elem_of_map_to_list. by rewrite <- Hperm. }
  destruct (hintCh (sendHint s (metaHint req))).
  - unfold do_mapRange at 1. simpl.
    pose proof (mapRange_keeps _ ethMap (world y) Hy) as Hy1.
    destruct (mapRange ethMap (world y)) as [ents w]. simpl in Hy1.
    destruct (Hgo (hintLoop (sendHint s (metaHint req)) ents)
                {| world := w; trace := trace y ++ [CallHandler 0] |} Hy1) as [y3 ->].
    by eexists _, _, _.
  - destruct (Hgo (sendHint s (metaHint req)) (logInvoke 0 y) Hy) as [y3 ->].
    by eexists _, _, _.
Qed.

(** X20. For a configuration without unsupported fields that portsToLinux
    accepts: when the desired state is not empty and the host has none of
    its interfaces configurable, SetConfig fails with an Internal status
    that names one of them, and the host has been asked nothing but
    whether that interface is valid: the trace has grown by the invocation
    of the base handler and that one ValidInterface call, with no AddIP
    and no SendARP. *)
Theorem SetConfig_no_configurable_interface s req c y ifCfg ethMap :
  reachable s ->
  Req_Config req = Some c ->
  hasUnimplemented c = false ->
  portsToLinux fmt_eth (Ports c) (Devices c) = Ok (ifCfg, ethMap) ->
  ifCfg ≠ ∅ ->
  P (world y) ->
  (forall name w, P w -> is_Some (ifCfg !! name) ->
                  intf_ValidInterface name w = false) ->
  exists name s' y',
    is_Some (ifCfg !! name) /\
    SetConfig s req y =
      (s', y', Err (Errorf Internal
                      ("interface " +:+ name +:+ " is not configrable, <nil>"))) /\
    trace y' = trace y ++ [CallHandler 0; CallValidInterface name].
Proof.
  intros Hs Hreq Hun Hp Hne Hy Hinvalid.
  destruct (reachable_handlers s Hs) as [fs Hfs].
  rewrite (SetConfig_accepts _ _ _ _ Hreq Hun), Hfs. simpl.
  unfold baseInterfaceConfig. rewrite Hp.
  assert (Hgo : forall s1 y1, P (world y1) -> trace y1 = trace y ++ [CallHandler 0] ->
    exists name y3,
      is_Some (ifCfg !! name) /\
      (let '(entries, y2) := do_mapRange ifCfg y1 in
       match intfLoop s1 entries y2 with
       | (y3, Some err) => (s1, y3, Some err)
       | (y3, None) => (s1, do_SendARP false y3, None)
       end) = (s1, y3, Some (Errorf Internal
                ("interface " +:+ name +:+ " is not configrable, <nil>"))) /\
      trace y3 = trace y ++ [CallHandler 0; CallValidInterface name]).
  { intros s1 y1 Hy1 Ht. unfold do_mapRange.
    pose proof (mapRange_perm _ ifCfg (world y1)) as Hperm.
    pose proof (mapRange_keeps _ ifCfg (world y1) Hy1) as Hy2.
    destruct (mapRange ifCfg (world y1)) as [entries w]. simpl in Hperm, Hy2.
    destruct entries as [|[name li] entries].
    { exfalso. apply Hne. apply map_to_list_empty_iff.
      by apply Permutation_nil_l in Hperm. }
    assert (Hname : ifCfg !! name = Some li).
    { apply elem_of_map_to_list. rewrite <- Hperm. by apply elem_of_cons; left. }
    exists name, {| world := w; trace := trace y1 ++ [CallValidInterface name] |}.
    simpl. rewrite Hinvalid; [|done | by rewrite Hname]. simpl.
    split_and!; [by rewrite Hname | done |]. rewrite Ht. by rewrite <- app_assoc. }
  destruct (hintCh (sendHint s (metaHint req))).
  - unfold do_mapRange at 1. simpl.
    pose proof (mapRange_keeps _ ethMap (world y) Hy) as Hy1.
    destruct (mapRange ethMap (world y)) as [ents w]. simpl in Hy1.
    destruct (Hgo (hintLoop (sendHint s (metaHint req)) ents)
                {| world := w; trace := trace y ++ [CallHandler 0] |} Hy1 eq_refl)
      as (name & y3 & Hname & -> & Ht).
    by eexists name, _, _.
  - destruct (Hgo (sendHint s (metaHint req)) (logInvoke 0 y) Hy eq_refl)
      as (name & y3 & Hname & -> & Ht).
    by eexists name, _, _.
Qed.

End Liveness.

(** * Instances on the laboratory host *)

Section LabInstances.

Import Lab.

(** An instance of X2. *)
Lemma portsToLinux_undeclared_port_witness :
  portsToLinux fmt_eth [p1] [device e1; device undeclared] =
    Err (Errorf InvalidArgument
           ("invalid port name for Ethernet " +:+ GetPortName undeclared +:+
            ", does not map to a real interface")).
Proof.
  apply (portsToLinux_undeclared_port fmt_eth [p1] [device e1; device undeclared]
           [e1] undeclared []).
  - repeat constructor; by eexists.
  - reflexivity.
  - repeat constructor; try discriminate.
  - discriminate.
  - intros Hin. apply elem_of_cons in Hin as [[=]|Hin]. by apply elem_of_nil in Hin.
Defined.

(** An instance of X3. *)
Lemma portsToLinux_missing_port_name_witness :
  portsToLinux fmt_eth [p1] [device e1; device unnamed] =
    Err (Errorf InvalidArgument
           ("invalid ethernet port " +:+ fmt_eth unnamed +:+
            ", does not specify a name")).
Proof.
  apply (portsToLinux_missing_port_name fmt_eth [p1] [device e1; device unnamed]
           [e1] unnamed []).
  - repeat constructor; by eexists.
  - reflexivity.
  - repeat constructor; try discriminate.
  - by left.
Defined.

(** An instance of X4: p1 is declared at eth0 and then at eth1, and the
    Ethernet bound to p1 lands on eth1. *)
Lemma portsToLinux_last_port_declaration_witness :
  is_Some (({[ "eth1" := {| IPv4 := {[ "192.0.2.1" := 31 ]} |} ]}
              : gmap string linuxIntf) !! "eth1") /\
  is_Some (({[ "eth1" := "e1" ]} : gmap string string) !! "eth1").
Proof.
  apply (portsToLinux_last_port_declaration fmt_eth [p1; p1again] [device e1]
           _ _ [p1] p1again [] "eth1" e1).
  - reflexivity.
  - reflexivity.
  - constructor.
  - reflexivity.
  - apply elem_of_cons. by left.
  - reflexivity.
Defined.

(** An instance of X5, on the scenario. *)
Lemma portsToLinux_interfaces_witness :
  (is_Some (desired1 !! "eth0") <-> is_Some (names1 !! "eth0")) /\
  (is_Some (desired1 !! "eth0") ->
   exists e p, e ∈ flat_map Ethernets (Devices scenario) /\ p ∈ Ports scenario /\
               Port_Name p = GetPortName e /\ Port_Location p = Some "eth0").
Proof.
  apply (portsToLinux_interfaces fmt_eth (Ports scenario) (Devices scenario)
           desired1 names1 "eth0").
  reflexivity.
Defined.

(** An instance of X6, on the scenario. *)
Lemma portsToLinux_entries_witness :
  31 ≠ 0 /\
  exists e x, e ∈ flat_map Ethernets (Devices scenario) /\
              x ∈ Eth_Ipv4Addresses e /\
              Ipv4_Address x = "192.0.2.1" /\ GetPrefix x = 31.
Proof.
  apply (portsToLinux_entries fmt_eth (Ports scenario) (Devices scenario)
           desired1 names1 "eth0" {| IPv4 := {[ "192.0.2.1" := 31 ]} |}
           "192.0.2.1" 31).
  - reflexivity.
  - reflexivity.
  - reflexivity.
Defined.

(** An instance of X7: 192.0.2.1 is declared with 31 and then with 24. *)
Lemma portsToLinux_last_prefix_witness :
  exists li,
    ({[ "eth0" := {| IPv4 := {[ "192.0.2.1" := 24 ]} |} ]}
       : gmap string linuxIntf) !! "eth0" = Some li /\
    IPv4 li !! Ipv4_Address (addr "192.0.2.1" 24) = Some (GetPrefix (addr "192.0.2.1" 24)).
Proof.
  apply (portsToLinux_last_prefix fmt_eth [p1] [device twice]
           {[ "p1" := "eth0" ]} _ {[ "eth0" := "e1" ]} [] twice [] "eth0"
           [addr "192.0.2.1" 31] (addr "192.0.2.1" 24) []).
  - reflexivity.
  - reflexivity.
  - reflexivity.
  - reflexivity.
  - constructor.
  - reflexivity.
  - constructor.
Defined.

(** An instance of X10. *)
Lemma SetConfig_hint_channel_grows_witness :
  exists ch',
    hintCh (SetConfig hinted (request scenario) host0).1.1 = Some ch' /\
    chanGrows ch4 ch'.
Proof.
  apply (SetConfig_hint_channel_grows hinted (request scenario) host0 ch4).
  reflexivity.
Defined.

(** An instance of X11. *)
Lemma SetConfig_full_hint_channel_witness :
  hintCh (SetConfig choked (request scenario) host0).1.1 = Some fullCh.
Proof.
  apply (SetConfig_full_hint_channel choked (request scenario) host0 fullCh).
  - reflexivity.
  - simpl. lia.
Defined.

(** An instance of X12: a server with room in its hint channel and one
    with none. *)
Lemma SetConfig_outcome_independent_of_hints_witness :
  (SetConfig hinted (request scenario) host0).1.2 =
    (SetConfig choked (request scenario) host0).1.2 /\
  (SetConfig hinted (request scenario) host0).2 =
    (SetConfig choked (request scenario) host0).2 /\
  agree (SetConfig hinted (request scenario) host0).1.1
        (SetConfig choked (request scenario) host0).1.1.
Proof.
  apply (SetConfig_outcome_independent_of_hints hinted choked (request scenario) host0).
  split_and!; try reflexivity. split; intros _; by eexists.
Defined.

(** An instance of X13. *)
Lemma baseInterfaceConfig_call_sequence_witness :
  exists t,
    trace base1.1.2 = trace host0 ++ t ++ arpTail base1.2 /\ Forall isIntfLoopCall t.
Proof.
  apply (baseInterfaceConfig_call_sequence New scenario host0 base1.1.1).
  reflexivity.
Defined.

(** An instance of X14. *)
Lemma baseInterfaceConfig_applies_only_desired_witness :
  exists t,
    trace base1.1.2 = trace host0 ++ t /\
    forall name n, CallAddIP name n ∈ t ->
      exists li a m,
        desired1 !! name = Some li /\ IPv4 li !! a = Some m /\
        net_ParseCIDR (Sprintf_cidr a m) = inl n /\
        intfHasAddr New name a = false.
Proof.
  apply (baseInterfaceConfig_applies_only_desired New scenario host0
           base1.1.1 base1.1.2 base1.2 desired1 names1).
  - reflexivity.
  - reflexivity.
Defined.

(** An instance of X15. *)
Lemma baseInterfaceConfig_skips_cached_witness :
  addIPCalls (trace cached1.1.2) = addIPCalls (trace host0).
Proof.
  apply (baseInterfaceConfig_skips_cached New scenario host0
           cached1.1.1 cached1.1.2 cached1.2 desired1 names1).
  - reflexivity.
  - reflexivity.
Defined.

(** An instance of X16. *)
Lemma SetConfig_error_codes_witness :
  code (Errorf InvalidArgument
          "unsupported zero prefix length for address 192.0.2.1") = InvalidArgument \/
  code (Errorf InvalidArgument
          "unsupported zero prefix length for address 192.0.2.1") = Unimplemented \/
  code (Errorf InvalidArgument
          "unsupported zero prefix length for address 192.0.2.1") = Internal.
Proof.
  apply (SetConfig_error_codes New (request zeroPrefix) host0
           zeroPush.1.1 zeroPush.1.2).
  - reflexivity.
  - reflexivity.
Defined.

(** An instance of X17. *)
Lemma SetConfig_sends_interface_map_witness :
  exists hs,
    hs ≡ₚ (interfaceMapHint <$> map_to_list names1) /\
    hintCh (SetConfig hinted (request scenario) host0).1.1 =
      Some {| buf := buf ch4 ++ metaHint (request scenario) :: hs; cap := cap ch4 |}.
Proof.
  apply (SetConfig_sends_interface_map hinted (request scenario) scenario host0
           ch4 desired1 names1).
  - apply reach_SetHintChannel, reach_New.
  - reflexivity.
  - reflexivity.
  - reflexivity.
  - reflexivity.
  - vm_compute. lia.
Defined.

(** An instance of X18: the handler is given the scenario. *)
Lemma SetProtocolState_after_SetConfig_witness :
  SetProtocolState (SetConfig withProtocol (request scenario) host0).1.1
    {| Req_ProtocolState := None |}
    (SetConfig withProtocol (request scenario) host0).1.2 =
    Returned
      ((SetConfig withProtocol (request scenario) host0).1.1,
       {| world :=
            (needsConfig
               (match (SetConfig withProtocol (request scenario) host0).2 with
                | Ok _ => Req_Config (request scenario)
                | Err _ => cfg withProtocol
                end) (GetState {| Req_ProtocolState := None |})
               (world (SetConfig withProtocol (request scenario) host0).1.2)).1;
          trace := trace (SetConfig withProtocol (request scenario) host0).1.2 |},
       match (needsConfig
                (match (SetConfig withProtocol (request scenario) host0).2 with
                 | Ok _ => Req_Config (request scenario)
                 | Err _ => cfg withProtocol
                 end) (GetState {| Req_ProtocolState := None |})
                (world (SetConfig withProtocol (request scenario) host0).1.2)).2 with
       | Some err => Err err
       | None =>
           Ok {| SetProtocolState_StatusCode_200 := Some {| Warnings := [] |} |}
       end).
Proof.
  apply (SetProtocolState_after_SetConfig withProtocol (request scenario) host0
           needsConfig {| Req_ProtocolState := None |}).
  reflexivity.
Defined.

(** An instance of X19: the host keeps eth0. *)
Lemma SetConfig_succeeds_witness :
  exists s' y' resp,
    SetConfig New (request scenario) host0 = (s', y', Ok resp) /\
    cfg s' = Some scenario.
Proof.
  apply (@SetConfig_succeeds lab (fun w : Host => is_Some (w !! "eth0"))
           (fun A m w Hw => Hw)
           New (request scenario) scenario host0 desired1 names1).
  - reflexivity.
  - reflexivity.
  - reflexivity.
  - reflexivity.
  - by eexists.
  - intros name w Hw Hname. unfold desired1 in Hname.
    apply lookup_singleton_is_Some in Hname as <-.
    simpl. unfold ValidInterface. by apply bool_decide_eq_true.
  - intros name n w [l Hl] Hname. unfold desired1 in Hname.
    apply lookup_singleton_is_Some in Hname as <-.
    simpl. unfold AddIP. rewrite Hl. simpl.
    split; [by rewrite lookup_insert_eq | done].
  - intros name li a m Hname Ha. unfold desired1 in Hname.
    apply lookup_singleton_Some in Hname as [<- <-]. simpl in Ha.
    apply lookup_singleton_Some in Ha as [<- <-].
    exists net31. reflexivity.
Defined.

(** An instance of X20: the host has no eth9. *)
Lemma SetConfig_no_configurable_interface_witness :
  exists name s' y',
    is_Some (desired9 !! name) /\
    SetConfig New (request elsewhere) host0 =
      (s', y', Err (Errorf Internal
                      ("interface " +:+ name +:+ " is not configrable, <nil>"))) /\
    trace y' = trace host0 ++ [CallHandler 0; CallValidInterface name].
Proof.
  apply (@SetConfig_no_configurable_interface lab (fun w : Host => w !! "eth9" = None)
           (fun A m w Hw => Hw)
           New (request elsewhere) elsewhere host0 desired9 names9).
  - apply reach_New.
  - reflexivity.
  - reflexivity.
  - reflexivity.
  - unfold desired9. apply insert_non_empty.
  - reflexivity.
  - intros name w Hw Hname. unfold desired9 in Hname.
    apply lookup_singleton_is_Some in Hname as <-.
    simpl. unfold ValidInterface. apply bool_decide_eq_false.
    rewrite Hw. by intros [? [=]].
Defined.

End LabInstances.
